(** * ChainState (electrumx/server/chain_state.py): history cache, invalidation
      and offloaded store scans.

    The facade keeps one [pylru.lrucache(256)] of per-key histories, drops
    entries from a notification callback, and runs the store scans of
    [get_history] and [get_utxos] on a worker thread while the calling
    coroutine is suspended. *)

From Stdlib Require Import ZArith List Lia.
From stdpp Require Import base option list sorting gmap sets.

Local Open Scope Z_scope.

(** ** pylru.lrucache

    The cache of the third-party [pylru] package, as the source uses it.  It is
    a ring of a fixed number of nodes walked from [head]; a node is empty or
    holds a key and a value; the most recently used node is the head, and the
    node before the head (the last one of the walk) is the one reused by an
    insertion.  [self.table], the dictionary from keys to nodes, is read off the
    ring. *)
Module Pylru.
Section lrucache.
Context {K V : Type} `{!EqDecision K}.

(** [_dlnode]: [None] is a node with [empty = True]. *)
Definition dlnode : Type := option (K * V).

(** The ring, listed from [self.head] along [next]. *)
Record lrucache : Type := Lru { ring : list dlnode }.

(** [lrucache(size)]: [size] empty nodes and an empty table. *)
Definition new (size : nat) : lrucache := Lru (replicate size None).

(** [node = self.table[key]] followed by taking the node out of the ring (the
    first two assignments of [mtf]): the value held and the ring without the
    node; [None] is Python's [KeyError]. *)
Fixpoint unlink (k : K) (l : list dlnode) : option (V * list dlnode) :=
  match l with
  | [] => None
  | Some (k', v) :: l' =>
      if decide (k' = k) then Some (v, l')
      else (λ p, (p.1, Some (k', v) :: p.2)) <$> unlink k l'
  | None :: l' => (λ p, (p.1, None :: p.2)) <$> unlink k l'
  end.

(** [key in cache]: a table lookup, the order is left alone. *)
Definition contains (c : lrucache) (k : K) : bool :=
  match unlink k (ring c) with Some _ => true | None => false end.

(** [cache.peek(key)]. *)
Definition peek (c : lrucache) (k : K) : option V := fst <$> unlink k (ring c).

(** [len(cache)] is [len(self.table)]: the number of nodes in use. *)
Definition len (c : lrucache) : nat := length (filter is_Some (ring c)).

(** [cache[key]]: the node moves in front of the head and becomes the head. *)
Definition getitem (c : lrucache) (k : K) : option (V * lrucache) :=
  (λ p, (p.1, Lru (Some (k, p.1) :: p.2))) <$> unlink k (ring c).

(** [cache[key] = value].  A key already in the table has its value replaced
    and its node made the head.  Otherwise the node before the head takes the
    new key and value, whatever it held leaves the table, and it becomes the
    head. *)
Definition setitem (c : lrucache) (k : K) (v : V) : lrucache :=
  match unlink k (ring c) with
  | Some (_, r) => Lru (Some (k, v) :: r)
  | None => Lru (Some (k, v) :: removelast (ring c))
  end.

(** [del cache[key]]: the node is emptied and moved to the tail of the ring. *)
Definition delitem (c : lrucache) (k : K) : option lrucache :=
  (λ p, Lru (p.2 ++ [None])) <$> unlink k (ring c).

(** [iter(cache)]: the keys of the first [len(self.table)] nodes from the
    head. *)
Definition iter (c : lrucache) : list K :=
  omap (fmap fst) (take (len c) (ring c)).

(** *** The entries of a cache, most recently used first *)
Definition items (c : lrucache) : list (K * V) := omap id (ring c).

Definition keys (c : lrucache) : list K := (items c).*1.

Fixpoint alookup (k : K) (es : list (K * V)) : option V :=
  match es with
  | [] => None
  | (k', v) :: es' => if decide (k' = k) then Some v else alookup k es'
  end.

Definition aremove (k : K) (es : list (K * V)) : list (K * V) :=
  filter (λ e, e.1 ≠ k) es.

(** The cache of [size] nodes whose entries are [es]. *)
Definition of_items (size : nat) (es : list (K * V)) : lrucache :=
  Lru ((Some <$> es) ++ replicate (size - length es) None).

(** The shape pylru maintains: [size] nodes, the nodes in use first and
    holding distinct keys, the empty ones together at the tail. *)
Record wf (size : nat) (c : lrucache) : Prop := Wf {
  wf_size : length (ring c) = size;
  wf_keys : NoDup (keys c);
  wf_tail : ring c = (Some <$> items c) ++ replicate (size - length (items c)) None
}.
End lrucache.
Global Arguments lrucache : clear implicits.
Global Arguments dlnode : clear implicits.
End Pylru.

(** ** Data of the facade *)

(** [hashX]: the fixed-size script hash used as cache key and as the unit of
    invalidation, read as an unsigned integer. *)
Definition hashX : Type := N.

(** Records of a history and of a UTXO listing.  The facade only moves them. *)
Inductive hist_record : Type := HistRecord (id : N).
Inductive utxo_record : Type := UtxoRecord (id : N).

Definition bytes : Type := list Byte.byte.

Inductive store_error : Type := DBError (code : N).

Inductive exn : Type :=
| IndexError (height : Z)
| KeyError (k : hashX)
| StoreError (e : store_error).

Inductive result (A : Type) : Type :=
| Ok (a : A)
| Raise (e : exn).
Global Arguments Ok {A} a.
Global Arguments Raise {A} e.

(** Modelled from the spec: the block processor behind [self._bp] (the store),
    whose class is not part of this file.  It holds, per key, the ordered
    history and UTXO records, the locally indexed height, and the headers read
    by [read_headers(height, count) -> (bytes, actual_count)]. *)
Record block_processor : Type := BlockProcessor {
  bp_history : hashX → list hist_record;
  bp_utxos : hashX → list utxo_record;
  bp_db_height : Z;
  bp_read_headers : Z → Z → store_error + (bytes * Z)
}.

(** Modelled from the spec: a store scan with [limit] ([scan_history(key,
    limit)], [scan_utxos(key, limit|none)]) yields the records in order, all of
    them for [None] and the first [limit] otherwise. *)
Definition scan {A : Type} (limit : option Z) (records : list A) : list A :=
  match limit with
  | None => records
  | Some n => take (Z.to_nat n) records
  end.

Definition bp_get_history (b : block_processor) (k : hashX) (limit : option Z)
  : list hist_record := scan limit (bp_history b k).

Definition bp_get_utxos (b : block_processor) (k : hashX) (limit : option Z)
  : list utxo_record := scan limit (bp_utxos b k).

(** The type of [self._history_cache]. *)
Abbreviation hcache := (Pylru.lrucache hashX (list hist_record)).

(** A job handed to [self._tasks.run_in_thread] together with the coroutine
    awaiting it; the result is [None] until the worker thread has run the job. *)
Inductive task : Type :=
| HistoryJob (k : hashX) (res : option (list hist_record))
| UtxosJob (k : hashX) (res : option (list utxo_record)).

Record chain_state : Type := ChainState {
  history_cache : Pylru.lrucache hashX (list hist_record);
  bp : block_processor;
  bp_shutdown : bool;     (* [self._bp.shutdown()] has been awaited *)
  daemon_height : Z;      (* [self._daemon.cached_height()] *)
  max_send : Z;           (* [self._env.max_send] *)
  tasks : gmap nat task;  (* jobs in flight, by an identifier of the awaiter *)
  next_task : nat
}.

Definition set_cache (s : chain_state) (c : Pylru.lrucache hashX (list hist_record))
  : chain_state :=
  ChainState c (bp s) (bp_shutdown s) (daemon_height s) (max_send s) (tasks s)
    (next_task s).

Definition set_tasks (s : chain_state) (ts : gmap nat task) : chain_state :=
  ChainState (history_cache s) (bp s) (bp_shutdown s) (daemon_height s)
    (max_send s) ts (next_task s).

(** [__init__]: [self._history_cache = pylru.lrucache(256)]. *)
Definition cache_size : nat := 256.

Definition init (b : block_processor) (dh : Z) (ms : Z) : chain_state :=
  ChainState (Pylru.new cache_size) b false dh ms ∅ 0.

(** ** Operations *)

(** The loop of [_notify], for the keys in the order the set yields them. *)
Fixpoint del_each (ks : list hashX) (c : Pylru.lrucache hashX (list hist_record))
  : Pylru.lrucache hashX (list hist_record) * option exn :=
  match ks with
  | [] => (c, None)
  | k :: ks' =>
      match Pylru.delitem c k with
      | Some c' => del_each ks' c'
      | None => (c, Some (KeyError k))
      end
  end.

(** [set(hc).intersection(touched)]. *)
Definition touched_cached (c : Pylru.lrucache hashX (list hist_record))
  (touched : gset hashX) : gset hashX :=
  list_to_set (Pylru.iter c) ∩ touched.

(** [_notify(height, touched)]. *)
Definition notify (c : Pylru.lrucache hashX (list hist_record)) (height : Z)
  (touched : gset hashX) : Pylru.lrucache hashX (list hist_record) * option exn :=
  del_each (elements (touched_cached c touched)) c.

Definition db_height (s : chain_state) : Z := bp_db_height (bp s).

(** The inner [job] of [get_history]. *)
Definition history_job (s : chain_state) (k : hashX) : list hist_record :=
  let limit := max_send s / 97 in
  bp_get_history (bp s) k (Some limit).

(** The inner [job] of [get_utxos]. *)
Definition utxos_job (s : chain_state) (k : hashX) : list utxo_record :=
  bp_get_utxos (bp s) k None.

Inductive response : Type :=
| Suspended (tid : nat)
| History (v : list hist_record)
| Utxos (v : list utxo_record)
| Header (b : bytes)
| Flag (b : bool)
| Done
| Raised (e : exn).

(** [run_in_thread(job)] up to the [await]: the job is queued and the caller
    suspends. *)
Definition spawn (s : chain_state) (t : task) : chain_state * response :=
  (ChainState (history_cache s) (bp s) (bp_shutdown s) (daemon_height s)
     (max_send s) (<[next_task s := t]> (tasks s)) (S (next_task s)),
   Suspended (next_task s)).

(** [return hc[hashX]]. *)
Definition get_history_return (s : chain_state) (k : hashX)
  : chain_state * response :=
  match Pylru.getitem (history_cache s) k with
  | Some (v, c) => (set_cache s c, History v)
  | None => (s, Raised (KeyError k))
  end.

(** [get_history] from its entry to the [await], or to its return on a hit. *)
Definition get_history_call (s : chain_state) (k : hashX)
  : chain_state * response :=
  if Pylru.contains (history_cache s) k then get_history_return s k
  else spawn s (HistoryJob k None).

(** [get_history] from the [await] on: [hc[hashX] = <result>; return
    hc[hashX]]. *)
Definition get_history_resume (s : chain_state) (k : hashX)
  (v : list hist_record) : chain_state * response :=
  get_history_return (set_cache s (Pylru.setitem (history_cache s) k v)) k.

Definition get_utxos_call (s : chain_state) (k : hashX)
  : chain_state * response := spawn s (UtxosJob k None).

Definition processing_new_block (s : chain_state) : bool :=
  daemon_height s >? db_height s.

Definition raw_header (s : chain_state) (height : Z) : result bytes :=
  match bp_read_headers (bp s) height 1 with
  | inl e => Raise (StoreError e)
  | inr (header, n) =>
      if decide (n ≠ 1) then Raise (IndexError height) else Ok header
  end.

(** [shutdown]: [await self._bp.shutdown()] and nothing else.  The block
    processor's own [shutdown] is not part of this file; after the
    specification ("signal store to flush and stop, await completion") it is
    taken to leave the indexed data and the jobs handed to the executor as they
    are, and the flag only records that it has been awaited.  The facade's
    cache is not in its reach. *)
Definition shutdown (s : chain_state) : chain_state :=
  ChainState (history_cache s) (bp s) true (daemon_height s) (max_send s)
    (tasks s) (next_task s).

(** ** The event loop

    Coroutines run on one cooperative loop, so the code between two [await]s
    is one step.  [_notify] has no [await] inside; [get_history] and
    [get_utxos] have one, at [run_in_thread].  The worker thread runs a queued
    job at some later point, and the awaiting coroutine resumes later still.
    The collaborators change on their own ([Advance]). *)
Inductive event : Type :=
| Notify (height : Z) (touched : gset hashX)
| GetHistory (k : hashX)
| GetUtxos (k : hashX)
| Worker (tid : nat)
| Resume (tid : nat)
| RawHeader (height : Z)
| ProcessingNewBlock
| Shutdown
| Advance (b : block_processor) (dh : Z).

Definition step (s : chain_state) (e : event) : option (chain_state * response) :=
  match e with
  | Notify height touched =>
      let '(c, err) := notify (history_cache s) height touched in
      Some (set_cache s c, from_option Raised Done err)
  | GetHistory k => Some (get_history_call s k)
  | GetUtxos k => Some (get_utxos_call s k)
  | Worker tid =>
      match tasks s !! tid with
      | Some (HistoryJob k None) =>
          Some (set_tasks s (<[tid := HistoryJob k (Some (history_job s k))]> (tasks s)),
                Done)
      | Some (UtxosJob k None) =>
          Some (set_tasks s (<[tid := UtxosJob k (Some (utxos_job s k))]> (tasks s)),
                Done)
      | _ => None
      end
  | Resume tid =>
      match tasks s !! tid with
      | Some (HistoryJob k (Some v)) =>
          Some (get_history_resume (set_tasks s (delete tid (tasks s))) k v)
      | Some (UtxosJob k (Some v)) =>
          Some (set_tasks s (delete tid (tasks s)), Utxos v)
      | _ => None
      end
  | RawHeader height =>
      Some (s, match raw_header s height with Ok b => Header b | Raise x => Raised x end)
  | ProcessingNewBlock => Some (s, Flag (processing_new_block s))
  | Shutdown => Some (shutdown s, Done)
  | Advance b dh =>
      Some (ChainState (history_cache s) b (bp_shutdown s) dh (max_send s)
              (tasks s) (next_task s), Done)
  end.

(** ** Bookkeeping for the statements

    The program keeps no sequence numbers and no access times.  To state when
    a computation began relative to a notification, and which entry was used
    least recently, a schedule is run together with the following record,
    which the program never reads. *)
Record ghost : Type := Ghost {
  seqno : nat;              (* notifications delivered so far *)
  started : gmap nat nat;   (* job -> [seqno] when its [get_history] call began *)
  origin : gmap hashX nat;  (* key -> [started] of the job whose result was
                               installed under it last *)
  clock : nat;              (* cache accesses so far *)
  stamp : gmap hashX nat    (* key -> [clock] at its last hit or installation *)
}.

Definition ghost0 : ghost := Ghost 0 ∅ ∅ 0 ∅.

(** A hit or an installation of [k]. *)
Definition touch (g : ghost) (k : hashX) : ghost :=
  Ghost (seqno g) (started g) (origin g) (S (clock g)) (<[k := clock g]> (stamp g)).

Definition track (s : chain_state) (g : ghost) (e : event) : ghost :=
  match e with
  | Notify _ _ =>
      Ghost (S (seqno g)) (started g) (origin g) (clock g) (stamp g)
  | GetHistory k =>
      if Pylru.contains (history_cache s) k then touch g k
      else Ghost (seqno g) (<[next_task s := seqno g]> (started g)) (origin g)
             (clock g) (stamp g)
  | Resume tid =>
      match tasks s !! tid with
      | Some (HistoryJob k (Some _)) =>
          touch (Ghost (seqno g) (delete tid (started g))
                   (<[k := default 0%nat (started g !! tid)]> (origin g))
                   (clock g) (stamp g)) k
      | _ => g
      end
  | _ => g
  end.

Definition stamp_of (g : ghost) (k : hashX) : nat := default 0%nat (stamp g !! k).

(** A schedule, with the responses it produces; [None] when some event of it
    is not enabled (a job that is not queued, a coroutine with no result). *)
Fixpoint run (s : chain_state) (g : ghost) (tr : list event)
  : option (chain_state * ghost * list response) :=
  match tr with
  | [] => Some (s, g, [])
  | e :: tr' =>
      match step s e with
      | Some (s', r) =>
          match run s' (track s g e) tr' with
          | Some (s'', g'', rs) => Some (s'', g'', r :: rs)
          | None => None
          end
      | None => None
      end
  end.

Definition reachable (s : chain_state) (g : ghost) : Prop :=
  ∃ b dh ms tr rs, run (init b dh ms) ghost0 tr = Some (s, g, rs).

(** The keys [get_history] is called for in a schedule, and the keys of the
    history jobs in flight. *)
Definition requested (tr : list event) : gset hashX :=
  list_to_set (omap (λ e, match e with GetHistory k => Some k | _ => None end) tr).

Definition pending (s : chain_state) : gset hashX :=
  list_to_set
    (omap (λ t, match t.2 with HistoryJob k _ => Some k | _ => None end)
       (map_to_list (tasks s))).

(** No notification of the schedule touches [k]. *)
Definition untouched (k : hashX) (tr : list event) : Prop :=
  ∀ height touched, Notify height touched ∈ tr → k ∉ touched.

(** Every cached history and every finished history job respects the limit
    derived from [max_send]. *)
Definition limited (ms : Z) (s : chain_state) : Prop :=
  max_send s = ms
  ∧ (∀ k v, (k, v) ∈ Pylru.items (history_cache s) →
       Z.of_nat (length v) ≤ ms / 97)
  ∧ (∀ tid k v, tasks s !! tid = Some (HistoryJob k (Some v)) →
       Z.of_nat (length v) ≤ ms / 97).

(** The order of the cache agrees with the access times: keys are listed by
    decreasing time of last access, all in the past. *)
Definition recency (s : chain_state) (g : ghost) : Prop :=
  StronglySorted (λ a b, stamp_of g b < stamp_of g a)%nat
    (Pylru.keys (history_cache s))
  ∧ ∀ k, k ∈ Pylru.keys (history_cache s) → (stamp_of g k < clock g)%nat.

(** Every history job in flight has its start recorded, at a sequence number
    that has been reached. *)
Definition started_ok (s : chain_state) (g : ghost) : Prop :=
  ∀ tid k res, tasks s !! tid = Some (HistoryJob k res) →
    ∃ s0, started g !! tid = Some s0 ∧ (s0 ≤ seqno g)%nat.

(** [k] is cached, the entries in front of it belong to keys of [A], and so
    do the history jobs in flight. *)
Definition kept (A : gset hashX) (k : hashX) (s : chain_state) : Prop :=
  (∀ tid k' res, tasks s !! tid = Some (HistoryJob k' res) → k' ∈ A)
  ∧ ∃ front v back,
      Pylru.items (history_cache s) = front ++ (k, v) :: back
      ∧ ∀ e, e ∈ front → e.1 ∈ A.

(** The store is left alone by a schedule: no [Advance] in it. *)
Definition static (tr : list event) : Prop := ∀ b dh, Advance b dh ∉ tr.

(** Every cached history and every finished history job is what the job of
    [get_history] computes from the store [b] with [max_send = ms]. *)
Definition coherent (b : block_processor) (ms : Z) (s : chain_state) : Prop :=
  bp s = b ∧ max_send s = ms
  ∧ (∀ k v, (k, v) ∈ Pylru.items (history_cache s) →
       v = bp_get_history b k (Some (ms / 97)))
  ∧ (∀ tid k v, tasks s !! tid = Some (HistoryJob k (Some v)) →
       v = bp_get_history b k (Some (ms / 97))).

(** Identifiers of jobs in flight are below the next one handed out. *)
Definition fresh_ids (s : chain_state) : Prop :=
  ∀ tid t, tasks s !! tid = Some t → (tid < next_task s)%nat.

(** The cached keys and the keys of the history jobs in flight are among [A]. *)
Definition within (A : gset hashX) (s : chain_state) : Prop :=
  (∀ k, k ∈ Pylru.keys (history_cache s) → k ∈ A)
  ∧ (∀ tid k res, tasks s !! tid = Some (HistoryJob k res) → k ∈ A).

(** * Facts *)

(** ** The cache in terms of its entries *)
Section lrucache_facts.
Context {K V : Type} `{!EqDecision K}.
Implicit Types (k : K) (v : V) (es : list (K * V)) (c : Pylru.lrucache K V).

Import Pylru.

Lemma unlink_replicate k n : unlink (V:=V) k (replicate n None) = None.
Proof. induction n as [|n IH]; simpl; [done|]. by rewrite IH. Qed.

Lemma omap_entries es n :
  omap id ((Some <$> es) ++ replicate n (@None (K * V))) = es.
Proof.
  rewrite omap_app.
  assert (omap id (replicate n (@None (K * V))) = []) as ->.
  { induction n as [|n IH]; [done|]. by csimpl. }
  rewrite app_nil_r.
  induction es as [|e es IH]; [done|].
  csimpl. by rewrite IH.
Qed.

Lemma alookup_None k es : alookup k es = None ↔ k ∉ es.*1.
Proof.
  induction es as [|[k' v'] es IH]; simpl.
  - split; [intros _; apply not_elem_of_nil | done].
  - rewrite not_elem_of_cons. destruct (decide (k' = k)) as [->|Hne].
    + split; [done | intros [? _]; done].
    + rewrite IH. split; [intros ?; split; [congruence | done] | tauto].
Qed.

Lemma alookup_Some k v es : alookup k es = Some v → (k, v) ∈ es.
Proof.
  induction es as [|[k' v'] es IH]; simpl; [done|].
  destruct (decide (k' = k)) as [->|Hne].
  - intros [= ->]. apply list_elem_of_here.
  - intros H. apply list_elem_of_further. auto.
Qed.

Lemma alookup_is_Some k es : is_Some (alookup k es) ↔ k ∈ es.*1.
Proof.
  destruct (alookup k es) eqn:E.
  - split; [intros _ | eauto].
    apply alookup_Some in E. apply (list_elem_of_fmap_2 fst _ _ E).
  - apply alookup_None in E. split; [by intros [? ?] | done].
Qed.

Lemma aremove_keys k es : (aremove k es).*1 = filter (λ x, x ≠ k) es.*1.
Proof.
  unfold aremove. induction es as [|[k' v'] es IH]; [done|].
  rewrite fmap_cons, !filter_cons. cbn [fst].
  destruct (decide (k' ≠ k)); [rewrite fmap_cons|]; by rewrite IH.
Qed.

Lemma aremove_absent k es : k ∉ es.*1 → aremove k es = es.
Proof.
  unfold aremove. induction es as [|[k' v'] es IH]; [done|].
  rewrite fmap_cons, not_elem_of_cons, filter_cons; simpl.
  intros [Hne Hk]. rewrite decide_True by congruence. by rewrite IH.
Qed.

Lemma aremove_length k v es :
  NoDup es.*1 → alookup k es = Some v → S (length (aremove k es)) = length es.
Proof.
  induction es as [|[k' v'] es IH]; simpl; [done|].
  rewrite NoDup_cons. intros [Hk Hnd].
  unfold aremove. rewrite filter_cons; simpl.
  destruct (decide (k' = k)) as [->|Hne].
  - intros _. rewrite decide_False by tauto.
    fold (aremove k es). by rewrite aremove_absent.
  - intros H. rewrite decide_True by done. simpl.
    fold (aremove k es). by rewrite (IH Hnd H).
Qed.

Lemma aremove_length_le k es : (length (aremove k es) ≤ length es)%nat.
Proof. apply length_filter. Qed.

Lemma aremove_NoDup k es : NoDup es.*1 → NoDup (aremove k es).*1.
Proof. rewrite aremove_keys. apply NoDup_filter. Qed.

Lemma unlink_entries k es n :
  NoDup es.*1 →
  unlink k ((Some <$> es) ++ replicate n None)
  = (λ v, (v, (Some <$> aremove k es) ++ replicate n None)) <$> alookup k es.
Proof.
  induction es as [|[k' v'] es IH].
  - intros _. apply unlink_replicate.
  - rewrite !fmap_cons. cbn [fst]. rewrite NoDup_cons. intros [Hk Hnd].
    cbn [app unlink alookup].
    unfold aremove. rewrite filter_cons. cbn [fst]. fold (aremove k es).
    destruct (decide (k' = k)) as [->|Hne].
    + rewrite decide_False by tauto. by rewrite aremove_absent.
    + rewrite decide_True by done. rewrite (IH Hnd).
      by destruct (alookup k es).
Qed.
End lrucache_facts.

Section lrucache_ops.
Context {K V : Type} `{!EqDecision K}.
Implicit Types (k : K) (v : V) (es : list (K * V)) (c : Pylru.lrucache K V).

Import Pylru.

Lemma items_of_items size es : items (of_items size es) = es.
Proof. apply omap_entries. Qed.

Lemma wf_of_items size es :
  NoDup es.*1 → (length es ≤ size)%nat → wf size (of_items size es).
Proof.
  intros Hnd Hle. split.
  - cbn [of_items ring]. rewrite length_app, length_fmap, length_replicate. lia.
  - unfold keys. by rewrite items_of_items.
  - by rewrite items_of_items.
Qed.

Lemma wf_eq size c : wf size c → c = of_items size (items c).
Proof. intros [_ _ H]. destruct c as [r]. unfold of_items. f_equal. exact H. Qed.

Lemma wf_length size c : wf size c → (length (items c) ≤ size)%nat.
Proof.
  intros [Hs _ Ht]. rewrite Ht in Hs.
  rewrite length_app, length_fmap, length_replicate in Hs. lia.
Qed.

Lemma wf_new size : wf size (new (K:=K) (V:=V) size).
Proof.
  assert (items (new (K:=K) (V:=V) size) = []) as E.
  { apply (omap_entries [] size). }
  split.
  - apply length_replicate.
  - unfold keys. rewrite E. constructor.
  - rewrite E. cbn. by rewrite Nat.sub_0_r.
Qed.

Lemma items_new size : items (new (K:=K) (V:=V) size) = [].
Proof. apply (omap_entries [] size). Qed.

Lemma peek_of_items size es k :
  NoDup es.*1 → peek (of_items size es) k = alookup k es.
Proof.
  intros Hnd. unfold peek, of_items; cbn [ring].
  rewrite unlink_entries by done. by destruct (alookup k es).
Qed.

Lemma contains_of_items size es k :
  NoDup es.*1 → contains (of_items size es) k = bool_decide (k ∈ es.*1).
Proof.
  intros Hnd. unfold contains, of_items; cbn [ring].
  rewrite unlink_entries by done.
  destruct (alookup k es) eqn:E; cbn.
  - symmetry. apply bool_decide_eq_true. apply alookup_is_Some. by rewrite E.
  - symmetry. apply bool_decide_eq_false. by apply alookup_None.
Qed.

Lemma len_of_items size es : len (of_items size es) = length es.
Proof.
  unfold len, of_items; cbn [ring]. rewrite filter_app, length_app.
  assert (filter is_Some (replicate (size - length es) (@None (K * V))) = []) as ->.
  { induction (size - length es)%nat as [|n IH]; [done|].
    rewrite replicate_S, filter_cons_False; [done|]. by intros [? ?]. }
  cbn. rewrite Nat.add_0_r.
  induction es as [|e es IH]; [done|].
  rewrite fmap_cons, filter_cons_True by eauto. cbn. by rewrite IH.
Qed.

Lemma iter_of_items size es : iter (of_items size es) = es.*1.
Proof.
  unfold iter. rewrite len_of_items. unfold of_items; cbn [ring].
  rewrite take_app_length' by (by rewrite length_fmap).
  induction es as [|[k v] es IH]; [done|]. csimpl. by rewrite IH.
Qed.

Lemma getitem_of_items size es k :
  NoDup es.*1 →
  getitem (of_items size es) k
  = (λ v, (v, of_items size ((k, v) :: aremove k es))) <$> alookup k es.
Proof.
  intros Hnd. unfold getitem, of_items at 1; cbn [ring].
  rewrite unlink_entries by done.
  destruct (alookup k es) as [v|] eqn:E; [|done]. cbn.
  unfold of_items. cbn [length]. rewrite (aremove_length k v es Hnd E).
  by rewrite fmap_cons.
Qed.

Lemma setitem_hit size es k v v0 :
  NoDup es.*1 → alookup k es = Some v0 →
  setitem (of_items size es) k v = of_items size ((k, v) :: aremove k es).
Proof.
  intros Hnd E. unfold setitem, of_items at 1; cbn [ring].
  rewrite unlink_entries, E by done. cbn.
  unfold of_items. cbn [length]. rewrite (aremove_length k v0 es Hnd E).
  by rewrite fmap_cons.
Qed.

Lemma setitem_room size es k v :
  NoDup es.*1 → alookup k es = None → (length es < size)%nat →
  setitem (of_items size es) k v = of_items size ((k, v) :: es).
Proof.
  intros Hnd E Hlt. unfold setitem, of_items at 1; cbn [ring].
  rewrite unlink_entries, E by done. cbn.
  unfold of_items. cbn [length]. rewrite fmap_cons, <- app_comm_cons.
  do 2 f_equal.
  replace (size - length es)%nat with (S (size - S (length es))) by lia.
  rewrite replicate_S_end, app_assoc. apply removelast_last.
Qed.

Lemma setitem_full size es k v :
  NoDup es.*1 → alookup k es = None → length es = size → (0 < size)%nat →
  setitem (of_items size es) k v = of_items size ((k, v) :: removelast es).
Proof.
  intros Hnd E Hlen Hpos. unfold setitem, of_items at 1; cbn [ring].
  rewrite unlink_entries, E by done. cbn.
  destruct (exists_last (l:=es)) as (es' & e & ->).
  { intros ->. cbn in Hlen. lia. }
  rewrite length_app in Hlen. cbn in Hlen.
  rewrite removelast_last.
  unfold of_items. cbn [length]. rewrite fmap_cons, <- app_comm_cons.
  do 2 f_equal.
  replace (size - length (es' ++ [e]))%nat with 0%nat
    by (rewrite length_app; cbn; lia).
  replace (size - S (length es'))%nat with 0%nat by lia.
  cbn. rewrite !app_nil_r, fmap_app. cbn. apply removelast_last.
Qed.

Lemma delitem_of_items size es k :
  NoDup es.*1 → (length es ≤ size)%nat →
  delitem (of_items size es) k
  = (λ _, of_items size (aremove k es)) <$> alookup k es.
Proof.
  intros Hnd Hle. unfold delitem, of_items at 1; cbn [ring].
  rewrite unlink_entries by done.
  destruct (alookup k es) as [v|] eqn:E; [|done]. cbn.
  unfold of_items. do 2 f_equal. rewrite <- app_assoc. f_equal.
  pose proof (aremove_length k v es Hnd E).
  replace (size - length (aremove k es))%nat with (S (size - length es)) by lia.
  by rewrite replicate_S_end.
Qed.
End lrucache_ops.

(** ** Well-formed caches stay well-formed *)
Section lrucache_wf.
Context {K V : Type} `{!EqDecision K}.
Implicit Types (k : K) (v : V) (es : list (K * V)) (c : Pylru.lrucache K V).

Import Pylru.

Lemma wf_len size c : wf size c → len c = length (items c).
Proof. intros H. rewrite (wf_eq size c H) at 1. apply len_of_items. Qed.

Lemma wf_iter size c : wf size c → iter c = keys c.
Proof. intros H. rewrite (wf_eq size c H) at 1. apply iter_of_items. Qed.

Lemma wf_peek size c k : wf size c → peek c k = alookup k (items c).
Proof.
  intros H. rewrite (wf_eq size c H) at 1. apply peek_of_items, H.
Qed.

Lemma wf_contains size c k :
  wf size c → contains c k = bool_decide (k ∈ keys c).
Proof.
  intros H. rewrite (wf_eq size c H) at 1. apply contains_of_items, H.
Qed.

Lemma NoDup_removelast_keys es : NoDup es.*1 → NoDup (removelast es).*1.
Proof.
  destruct es as [|e0 es0] using rev_ind; [done|].
  rewrite removelast_last, fmap_app, NoDup_app. tauto.
Qed.

Lemma removelast_length {A} (l : list A) : length (removelast l) = pred (length l).
Proof.
  destruct l as [|x0 l0] using rev_ind; [done|].
  rewrite removelast_last, length_app. cbn. lia.
Qed.

Lemma removelast_keys_subseteq es k : k ∈ (removelast es).*1 → k ∈ es.*1.
Proof.
  destruct es as [|e0 es0] using rev_ind; [done|].
  rewrite removelast_last, fmap_app, elem_of_app. tauto.
Qed.

Lemma wf_getitem size c k :
  wf size c → k ∈ keys c →
  ∃ v c', getitem c k = Some (v, c') ∧ alookup k (items c) = Some v
          ∧ wf size c' ∧ items c' = (k, v) :: aremove k (items c).
Proof.
  intros H Hk. pose proof (wf_keys _ _ H) as Hnd. unfold keys in *.
  apply alookup_is_Some in Hk as [v Hv].
  exists v, (of_items size ((k, v) :: aremove k (items c))).
  rewrite (wf_eq size c H) at 1. rewrite getitem_of_items, Hv by done.
  split; [done|]. split; [done|]. split; [|apply items_of_items].
  apply wf_of_items.
  - rewrite fmap_cons, NoDup_cons. split; [|by apply aremove_NoDup].
    cbn. rewrite aremove_keys, list_elem_of_filter. tauto.
  - cbn. rewrite (aremove_length k v _ Hnd Hv). by apply wf_length.
Qed.

Lemma wf_setitem_hit size c k v :
  wf size c → k ∈ keys c →
  wf size (setitem c k v) ∧ items (setitem c k v) = (k, v) :: aremove k (items c).
Proof.
  intros H Hk. pose proof (wf_keys _ _ H) as Hnd. unfold keys in *.
  apply alookup_is_Some in Hk as [v0 Hv].
  rewrite (wf_eq size c H) at 1 2. rewrite (setitem_hit size _ k v v0) by done.
  split; [|apply items_of_items].
  apply wf_of_items.
  - rewrite fmap_cons, NoDup_cons. split; [|by apply aremove_NoDup].
    cbn. rewrite aremove_keys, list_elem_of_filter. tauto.
  - cbn. rewrite (aremove_length k v0 _ Hnd Hv). by apply wf_length.
Qed.

Lemma wf_setitem_room size c k v :
  wf size c → k ∉ keys c → (length (items c) < size)%nat →
  wf size (setitem c k v) ∧ items (setitem c k v) = (k, v) :: items c.
Proof.
  intros H Hk Hlt. pose proof (wf_keys _ _ H) as Hnd. unfold keys in *.
  apply alookup_None in Hk.
  rewrite (wf_eq size c H) at 1 2. rewrite setitem_room by done.
  split; [|apply items_of_items].
  apply wf_of_items; [|cbn; lia].
  rewrite fmap_cons, NoDup_cons. split; [|done]. by apply alookup_None.
Qed.

Lemma wf_setitem_full size c k v :
  wf size c → k ∉ keys c → length (items c) = size → (0 < size)%nat →
  wf size (setitem c k v)
  ∧ items (setitem c k v) = (k, v) :: removelast (items c).
Proof.
  intros H Hk Hlen Hpos. pose proof (wf_keys _ _ H) as Hnd. unfold keys in *.
  pose proof Hk as Hk'. apply alookup_None in Hk.
  rewrite (wf_eq size c H) at 1 2. rewrite setitem_full by done.
  split; [|apply items_of_items].
  apply wf_of_items.
  - rewrite fmap_cons, NoDup_cons. split; [|by apply NoDup_removelast_keys].
    cbn. intros Hin. by apply Hk', removelast_keys_subseteq.
  - cbn. rewrite removelast_length. lia.
Qed.

Lemma wf_setitem size c k v :
  wf size c → (0 < size)%nat →
  wf size (setitem c k v) ∧ ∃ es, items (setitem c k v) = (k, v) :: es.
Proof.
  intros H Hpos. destruct (decide (k ∈ keys c)) as [Hk|Hk].
  - destruct (wf_setitem_hit size c k v H Hk) as [? ->]. eauto.
  - pose proof (wf_length size c H).
    destruct (decide (length (items c) < size)%nat) as [Hlt|Hge].
    + destruct (wf_setitem_room size c k v H Hk Hlt) as [? ->]. eauto.
    + destruct (wf_setitem_full size c k v H Hk) as [? ->]; [lia|done|eauto].
Qed.

Lemma wf_delitem size c k :
  wf size c → k ∈ keys c →
  ∃ c', delitem c k = Some c' ∧ wf size c' ∧ items c' = aremove k (items c).
Proof.
  intros H Hk. pose proof (wf_keys _ _ H) as Hnd. unfold keys in *.
  pose proof (wf_length size c H) as Hle.
  apply alookup_is_Some in Hk as [v Hv].
  exists (of_items size (aremove k (items c))).
  rewrite (wf_eq size c H) at 1. rewrite delitem_of_items, Hv by done.
  split; [done|]. split; [|apply items_of_items].
  apply wf_of_items; [by apply aremove_NoDup|].
  pose proof (aremove_length_le k (items c)). lia.
Qed.

End lrucache_wf.

(** ** The notification callback *)
Lemma filter_ext_in {A} (P Q : A → Prop) `{!∀ x, Decision (P x)}
    `{!∀ x, Decision (Q x)} (l : list A) :
  (∀ x, x ∈ l → (P x ↔ Q x)) → filter P l = filter Q l.
Proof.
  induction l as [|a l IH]; intros Hl; [done|].
  rewrite !filter_cons.
  assert (P a ↔ Q a) as Ha by (apply Hl; left).
  rewrite IH by (intros x Hx; apply Hl; by right).
  destruct (decide (P a)), (decide (Q a)); tauto.
Qed.

Lemma del_each_spec size (ks : list hashX) (c : hcache) :
  Pylru.wf size c → NoDup ks → (∀ k, k ∈ ks → k ∈ Pylru.keys c) →
  ∃ c', del_each ks c = (c', None) ∧ Pylru.wf size c'
        ∧ Pylru.items c' = filter (λ e, e.1 ∉ ks) (Pylru.items c).
Proof.
  revert c. induction ks as [|k ks IH]; intros c Hwf Hnd Hin.
  - exists c. split; [done|]. split; [done|].
    clear. induction (Pylru.items c) as [|e l IH]; [done|].
    rewrite filter_cons_True by apply not_elem_of_nil. by rewrite <- IH.
  - apply NoDup_cons in Hnd as [Hk Hnd].
    destruct (wf_delitem size c k Hwf) as (c1 & E1 & Hwf1 & Hi1).
    { apply Hin. left. }
    destruct (IH c1 Hwf1 Hnd) as (c' & E' & Hwf' & Hi').
    { intros k' Hk'. unfold Pylru.keys. rewrite Hi1, aremove_keys.
      apply list_elem_of_filter. split; [by intros -> | apply Hin; by right]. }
    exists c'. cbn [del_each]. rewrite E1. split; [done|]. split; [done|].
    rewrite Hi', Hi1. unfold Pylru.aremove. rewrite list_filter_filter.
    apply list_filter_iff. intros e. rewrite not_elem_of_cons. tauto.
Qed.

(** The order in which the set yields its keys does not matter. *)
Lemma del_each_permutation size (ks ks' : list hashX) (c : hcache) :
  Pylru.wf size c → NoDup ks → (∀ k, k ∈ ks → k ∈ Pylru.keys c) → ks ≡ₚ ks' →
  del_each ks' c = del_each ks c.
Proof.
  intros Hwf Hnd Hin Hp.
  destruct (del_each_spec size ks c Hwf Hnd Hin) as (c1 & -> & Hwf1 & Hi1).
  destruct (del_each_spec size ks' c Hwf) as (c2 & -> & Hwf2 & Hi2).
  { by rewrite <- Hp. }
  { intros k Hk. apply Hin. by rewrite Hp. }
  f_equal. rewrite (wf_eq size c1 Hwf1), (wf_eq size c2 Hwf2).
  f_equal. rewrite Hi1, Hi2. apply list_filter_iff. intros e. by rewrite Hp.
Qed.

Lemma notify_spec size (c : hcache) (height : Z) (touched : gset hashX) :
  Pylru.wf size c →
  ∃ c', notify c height touched = (c', None) ∧ Pylru.wf size c'
        ∧ Pylru.items c' = filter (λ e, e.1 ∉ touched) (Pylru.items c).
Proof.
  intros Hwf. unfold notify, touched_cached.
  rewrite (wf_iter size c Hwf).
  destruct (del_each_spec size
              (elements (list_to_set (C:=gset hashX) (Pylru.keys c) ∩ touched)) c Hwf)
    as (c' & E & Hwf' & Hi).
  { apply NoDup_elements. }
  { intros k. rewrite elem_of_elements, elem_of_intersection, elem_of_list_to_set.
    tauto. }
  exists c'. split; [done|]. split; [done|]. rewrite Hi.
  apply filter_ext_in. intros e He.
  rewrite elem_of_elements, elem_of_intersection, elem_of_list_to_set.
  assert (e.1 ∈ Pylru.keys c) by (by apply list_elem_of_fmap_2).
  tauto.
Qed.

Lemma alookup_filter_keep (P : hashX → Prop)
    `{!∀ e : hashX * list hist_record, Decision (P e.1)}
    (es : list (hashX * list hist_record)) k :
  P k → Pylru.alookup k (filter (λ e, P e.1) es) = Pylru.alookup k es.
Proof.
  intros Hk. induction es as [|[k' v'] es IH]; [done|].
  rewrite filter_cons. destruct (decide (P (k', v').1)) as [HP|HP].
  - cbn [Pylru.alookup]. by rewrite IH.
  - cbn [Pylru.alookup]. rewrite decide_False; [done|]. intros ->. by apply HP.
Qed.

(** ** Steps of the facade *)
Lemma getitem_front size (c : hcache) k v es :
  Pylru.wf size c → Pylru.items c = (k, v) :: es → Pylru.getitem c k = Some (v, c).
Proof.
  intros Hwf Hi. pose proof (Pylru.wf_keys _ _ Hwf) as Hnd.
  unfold Pylru.keys in Hnd. rewrite Hi, fmap_cons, NoDup_cons in Hnd.
  destruct Hnd as [Hk Hnd].
  rewrite (wf_eq size c Hwf), Hi.
  rewrite getitem_of_items by (rewrite fmap_cons, NoDup_cons; done).
  assert (Pylru.alookup k ((k, v) :: es) = Some v) as ->
    by (cbn; by rewrite decide_True).
  assert (Pylru.aremove k ((k, v) :: es) = es) as ->; [|done].
  unfold Pylru.aremove. rewrite filter_cons_False by (cbn; tauto).
  fold (Pylru.aremove k es). by rewrite aremove_absent.
Qed.

Lemma get_history_resume_eq (s : chain_state) k v :
  Pylru.wf cache_size (history_cache s) →
  get_history_resume s k v
  = (set_cache s (Pylru.setitem (history_cache s) k v), History v).
Proof.
  intros Hwf. unfold get_history_resume, get_history_return.
  destruct (wf_setitem cache_size (history_cache s) k v Hwf) as [Hwf' [es Hes]].
  { unfold cache_size. lia. }
  cbn [history_cache set_cache].
  by rewrite (getitem_front cache_size _ k v es Hwf' Hes).
Qed.

Lemma get_history_call_hit (s : chain_state) k :
  Pylru.wf cache_size (history_cache s) → k ∈ Pylru.keys (history_cache s) →
  ∃ v c', get_history_call s k = (set_cache s c', History v)
          ∧ Pylru.peek (history_cache s) k = Some v
          ∧ Pylru.wf cache_size c'
          ∧ Pylru.items c' = (k, v) :: Pylru.aremove k (Pylru.items (history_cache s)).
Proof.
  intros Hwf Hk. unfold get_history_call, get_history_return.
  rewrite (wf_contains cache_size _ k Hwf), bool_decide_eq_true_2 by done.
  destruct (wf_getitem cache_size _ k Hwf Hk) as (v & c' & -> & Hv & Hwf' & Hi).
  exists v, c'. by rewrite (wf_peek cache_size _ k Hwf).
Qed.

Lemma get_history_call_miss (s : chain_state) k :
  Pylru.wf cache_size (history_cache s) → k ∉ Pylru.keys (history_cache s) →
  get_history_call s k = spawn s (HistoryJob k None).
Proof.
  intros Hwf Hk. unfold get_history_call.
  by rewrite (wf_contains cache_size _ k Hwf), bool_decide_eq_false_2.
Qed.

Lemma step_wf s e s' r :
  Pylru.wf cache_size (history_cache s) → step s e = Some (s', r) →
  Pylru.wf cache_size (history_cache s').
Proof.
  intros Hwf. destruct e as [h T|k|k|tid|tid|h| | |b dh]; cbn [step].
  - destruct (notify_spec cache_size _ h T Hwf) as (c' & -> & Hwf' & _).
    by intros [= <- <-].
  - destruct (decide (k ∈ Pylru.keys (history_cache s))) as [Hk|Hk].
    + destruct (get_history_call_hit s k Hwf Hk) as (v & c' & -> & _ & Hwf' & _).
      by intros [= <- <-].
    + rewrite get_history_call_miss by done. by intros [= <- <-].
  - by intros [= <- <-].
  - destruct (tasks s !! tid) as [[k [v|]|k [v|]]|]; intros [= <- <-]; done.
  - destruct (tasks s !! tid) as [[k [v|]|k [v|]]|]; try done.
    + rewrite get_history_resume_eq by done. intros [= <- <-].
      apply (wf_setitem cache_size _ k v Hwf). unfold cache_size. lia.
    + by intros [= <- <-].
  - by intros [= <- <-].
  - by intros [= <- <-].
  - by intros [= <- <-].
  - by intros [= <- <-].
Qed.

Lemma run_wf tr : ∀ s g s' g' rs,
  Pylru.wf cache_size (history_cache s) → run s g tr = Some (s', g', rs) →
  Pylru.wf cache_size (history_cache s').
Proof.
  induction tr as [|e tr IH]; intros s g s' g' rs Hwf; cbn [run].
  - by intros [= <- <- <-].
  - destruct (step s e) as [[s1 r]|] eqn:E; [|done].
    destruct (run s1 (track s g e) tr) as [[[s2 g2] rs2]|] eqn:E2; [|done].
    intros [= <- <- <-]. eapply IH; [|exact E2]. eapply step_wf; eauto.
Qed.

Lemma reachable_wf s g : reachable s g → Pylru.wf cache_size (history_cache s).
Proof.
  intros (b & dh & ms & tr & rs & Hrun).
  eapply run_wf; [|exact Hrun]. apply wf_new.
Qed.

(** * The claims *)

(** A cache of 256 nodes holding two histories, used as a concrete input. *)
Lemma wf_two_entries :
  Pylru.wf cache_size
    (Pylru.setitem (Pylru.setitem (Pylru.new cache_size) 1%N [HistRecord 1])
       2%N [HistRecord 2; HistRecord 3]).
Proof.
  apply wf_setitem; [|unfold cache_size; lia].
  apply wf_setitem; [|unfold cache_size; lia].
  apply wf_new.
Qed.

(** C5: [_notify] removes exactly the entries whose key is in the touched set
    and present in the cache; every entry whose key is not touched stays, with
    the same key, the same value and the same place in the order. *)
Theorem notify_removes_exactly_touched (c : hcache) (height : Z)
    (touched : gset hashX) :
  Pylru.wf cache_size c →
  ∃ c', notify c height touched = (c', None)
        ∧ Pylru.items c' = filter (λ e, e.1 ∉ touched) (Pylru.items c)
        ∧ (∀ k, k ∈ touched → Pylru.contains c' k = false)
        ∧ (∀ k, k ∉ touched → Pylru.peek c' k = Pylru.peek c k).
Proof.
  intros Hwf.
  destruct (notify_spec cache_size c height touched Hwf) as (c' & E & Hwf' & Hi).
  exists c'. split; [done|]. split; [done|]. split.
  - intros k Hk. rewrite (wf_contains cache_size c' k Hwf').
    apply bool_decide_eq_false. unfold Pylru.keys. rewrite Hi.
    intros Hin. apply list_elem_of_fmap in Hin as (e & -> & He).
    apply list_elem_of_filter in He. tauto.
  - intros k Hk.
    rewrite (wf_peek cache_size c' k Hwf'), (wf_peek cache_size c k Hwf), Hi.
    by apply (alookup_filter_keep (λ k, k ∉ touched)).
Qed.

Lemma notify_removes_exactly_touched_witness :
  ∃ c', notify
          (Pylru.setitem (Pylru.setitem (Pylru.new cache_size) 1%N [HistRecord 1])
             2%N [HistRecord 2; HistRecord 3]) 100 {[1%N; 5%N]} = (c', None)
        ∧ Pylru.items c' = [(2%N, [HistRecord 2; HistRecord 3])].
Proof.
  destruct (notify_removes_exactly_touched _ 100 {[1%N; 5%N]} wf_two_entries)
    as (c' & E & Hi & _).
  exists c'. split; [exact E|]. rewrite Hi. vm_compute. reflexivity.
Defined.

(** C10: [_notify] is idempotent and never grows the cache: a second call with
    the same touched set changes nothing, the number of entries does not
    increase, and every key present afterwards was present before. *)
Theorem notify_idempotent_nonincreasing (c : hcache) (height : Z)
    (touched : gset hashX) :
  Pylru.wf cache_size c →
  ∃ c', notify c height touched = (c', None)
        ∧ notify c' height touched = (c', None)
        ∧ (Pylru.len c' ≤ Pylru.len c)%nat
        ∧ (∀ k, Pylru.contains c' k = true → Pylru.contains c k = true).
Proof.
  intros Hwf.
  destruct (notify_spec cache_size c height touched Hwf) as (c' & E & Hwf' & Hi).
  destruct (notify_spec cache_size c' height touched Hwf') as (c2 & E2 & Hwf2 & Hi2).
  exists c'. split; [done|]. split; [|split].
  - rewrite E2. f_equal.
    rewrite (wf_eq cache_size c2 Hwf2), (wf_eq cache_size c' Hwf'). f_equal.
    rewrite Hi2, Hi, list_filter_filter. apply list_filter_iff. tauto.
  - rewrite (wf_len cache_size c' Hwf'), (wf_len cache_size c Hwf), Hi.
    apply length_filter.
  - intros k. rewrite (wf_contains cache_size c' k Hwf'),
      (wf_contains cache_size c k Hwf), !bool_decide_eq_true.
    unfold Pylru.keys. rewrite Hi. intros Hin.
    apply list_elem_of_fmap in Hin as (e & -> & He).
    apply list_elem_of_filter in He as [_ He]. by apply list_elem_of_fmap_2.
Qed.

Lemma notify_idempotent_nonincreasing_witness :
  ∃ c', notify
          (Pylru.setitem (Pylru.setitem (Pylru.new cache_size) 1%N [HistRecord 1])
             2%N [HistRecord 2; HistRecord 3]) 100 {[2%N]} = (c', None)
        ∧ notify c' 100 {[2%N]} = (c', None)
        ∧ (Pylru.len c' ≤ 2)%nat.
Proof.
  destruct (notify_idempotent_nonincreasing _ 100 {[2%N]} wf_two_entries)
    as (c' & E & E2 & Hlen & _).
  exists c'. split; [exact E|]. split; [exact E2|].
  vm_compute in Hlen. exact Hlen.
Defined.

(** C6: [processing_new_block] is true exactly when the daemon's height is
    strictly greater than the height the store has indexed
    ([self._bp.db_height]); it is false when they are equal and false, not an
    error, when the indexed height is the greater one. *)
Theorem processing_new_block_strict (s : chain_state) :
  db_height s = bp_db_height (bp s)
  ∧ (processing_new_block s = true ↔ daemon_height s > bp_db_height (bp s))
  ∧ (daemon_height s = bp_db_height (bp s) → processing_new_block s = false)
  ∧ (bp_db_height (bp s) > daemon_height s → processing_new_block s = false)
  ∧ step s ProcessingNewBlock = Some (s, Flag (processing_new_block s)).
Proof.
  unfold processing_new_block, db_height.
  repeat split; try (intros; lia).
Qed.

Lemma processing_new_block_strict_witness :
  let low := BlockProcessor (λ _, []) (λ _, []) 100 (λ _ _, inr ([], 0)) in
  let high := BlockProcessor (λ _, []) (λ _, []) 120 (λ _ _, inr ([], 0)) in
  processing_new_block (init high 118 1000000) = false
  ∧ processing_new_block (init high 120 1000000) = false
  ∧ processing_new_block (init low 118 1000000) = true
  ∧ processing_new_block (init low 100 1000000) = false.
Proof.
  intros low high. split; [|split; [|split]].
  - apply (proj1 (proj2 (proj2 (proj2
             (processing_new_block_strict (init high 118 1000000)))))).
    cbn. lia.
  - apply (proj1 (proj2 (proj2 (processing_new_block_strict (init high 120 1000000))))).
    reflexivity.
  - apply (proj2 (proj1 (proj2 (processing_new_block_strict (init low 118 1000000))))).
    cbn. lia.
  - apply (proj1 (proj2 (proj2 (processing_new_block_strict (init low 100 1000000))))).
    reflexivity.
Defined.

(** C7: [raw_header(height)] raises the out-of-range [IndexError] if and only
    if [read_headers(height, 1)] reports a count other than 1; with a count of
    1 it returns the store's header bytes as they are. *)
Theorem raw_header_out_of_range (s : chain_state) (height : Z) :
  ((∃ h, raw_header s height = Raise (IndexError h))
   ↔ ∃ header n, bp_read_headers (bp s) height 1 = inr (header, n) ∧ n ≠ 1)
  ∧ (∀ header n, bp_read_headers (bp s) height 1 = inr (header, n) → n ≠ 1 →
       raw_header s height = Raise (IndexError height))
  ∧ (∀ header, bp_read_headers (bp s) height 1 = inr (header, 1) →
       raw_header s height = Ok header).
Proof.
  unfold raw_header. split; [split|split].
  - intros [h Hh]. destruct (bp_read_headers (bp s) height 1) as [e|[header n]].
    + done.
    + exists header, n. split; [done|]. by destruct (decide (n ≠ 1)).
  - intros (header & n & -> & Hn). exists height. by rewrite decide_True.
  - intros header n -> Hn. by rewrite decide_True.
  - intros header ->. by rewrite decide_False by lia.
Qed.

Lemma raw_header_out_of_range_witness :
  let rd := λ (h _ : Z), if decide (h ≤ 5)
                         then inr ([Byte.x01; Byte.x02], 1) else inr ([], 0) in
  let s := init (BlockProcessor (λ _, []) (λ _, []) 5 rd) 5 1000000 in
  raw_header s 6 = Raise (IndexError 6) ∧ raw_header s 3 = Ok [Byte.x01; Byte.x02].
Proof.
  intros rd s. split.
  - apply (proj1 (proj2 (raw_header_out_of_range s 6)) [] 0); [reflexivity | lia].
  - apply (proj2 (proj2 (raw_header_out_of_range s 3))). reflexivity.
Defined.

(** C9: [get_utxos] queues a store scan with no limit and leaves the history
    cache alone: the call, the job on the worker thread and the resumption
    each keep the cache as it is, and the value returned is the job's, which is
    the store's whole UTXO list at the time the job ran. *)
Theorem get_utxos_bypasses_cache (s : chain_state) (k : hashX) :
  (∃ s1, step s (GetUtxos k) = Some (s1, Suspended (next_task s))
         ∧ history_cache s1 = history_cache s
         ∧ tasks s1 !! next_task s = Some (UtxosJob k None))
  ∧ utxos_job s k = bp_get_utxos (bp s) k None
  ∧ utxos_job s k = bp_utxos (bp s) k
  ∧ (∀ tid, tasks s !! tid = Some (UtxosJob k None) →
       ∃ s1, step s (Worker tid) = Some (s1, Done)
             ∧ history_cache s1 = history_cache s
             ∧ tasks s1 !! tid = Some (UtxosJob k (Some (bp_utxos (bp s) k))))
  ∧ (∀ tid v, tasks s !! tid = Some (UtxosJob k (Some v)) →
       ∃ s1, step s (Resume tid) = Some (s1, Utxos v)
             ∧ history_cache s1 = history_cache s).
Proof.
  split; [|split; [done|split; [done|split]]].
  - eexists. split; [reflexivity|]. split; [done|]. cbn. apply lookup_insert_eq.
  - intros tid Ht. eexists. cbn [step]. rewrite Ht.
    split; [reflexivity|]. split; [done|]. cbn. apply lookup_insert_eq.
  - intros tid v Ht. eexists. cbn [step]. rewrite Ht.
    split; [reflexivity|done].
Qed.

Lemma get_utxos_bypasses_cache_witness :
  let b := BlockProcessor (λ _, [HistRecord 1])
             (λ _, [UtxoRecord 7; UtxoRecord 8; UtxoRecord 9]) 10 (λ _ _, inr ([], 0)) in
  ∃ s1 s2 s3 s4,
    step (init b 10 97) (GetHistory 4%N) = Some (s1, Suspended 0)
    ∧ step s1 (GetUtxos 4%N) = Some (s2, Suspended 1)
    ∧ step s2 (Worker 1) = Some (s3, Done)
    ∧ step s3 (Resume 1) = Some (s4, Utxos [UtxoRecord 7; UtxoRecord 8; UtxoRecord 9])
    ∧ history_cache s4 = history_cache s3.
Proof.
  intros b.
  destruct (step (init b 10 97) (GetHistory 4%N)) as [[s1 r1]|] eqn:E1; [|discriminate E1].
  destruct (get_utxos_bypasses_cache s1 4%N) as [(s2 & E2 & _ & T2) _].
  assert (next_task s1 = 1%nat ∧ r1 = Suspended 0) as [N1 ->].
  { vm_compute in E1. injection E1 as <- <-. split; reflexivity. }
  rewrite N1 in E2, T2.
  destruct (get_utxos_bypasses_cache s2 4%N) as (_ & _ & _ & HW & _).
  destruct (HW 1%nat T2) as (s3 & E3 & _ & T3).
  destruct (get_utxos_bypasses_cache s3 4%N) as (_ & _ & _ & _ & HR).
  destruct (HR 1%nat _ T3) as (s4 & E4 & C4).
  exists s1, s2, s3, s4. repeat split; try assumption.
  rewrite E4. do 3 f_equal.
  assert (bp s2 = b) as ->; [|reflexivity].
  vm_compute in E1. injection E1 as <-. vm_compute in E2. injection E2 as <-.
  reflexivity.
Defined.

(** ** Where cached and returned histories come from *)
Lemma setitem_items_incl size (c : hcache) k v e :
  Pylru.wf size c → (0 < size)%nat →
  e ∈ Pylru.items (Pylru.setitem c k v) → e = (k, v) ∨ e ∈ Pylru.items c.
Proof.
  intros Hwf Hpos. destruct (decide (k ∈ Pylru.keys c)) as [Hk|Hk].
  - destruct (wf_setitem_hit size c k v Hwf Hk) as [_ ->].
    rewrite elem_of_cons. unfold Pylru.aremove. rewrite list_elem_of_filter. tauto.
  - pose proof (wf_length size c Hwf).
    destruct (decide (length (Pylru.items c) < size)%nat) as [Hlt|Hge].
    + destruct (wf_setitem_room size c k v Hwf Hk Hlt) as [_ ->].
      by rewrite elem_of_cons.
    + destruct (wf_setitem_full size c k v Hwf Hk) as [_ ->]; [lia|done|].
      rewrite elem_of_cons. intros [?|Hin]; [by left|right].
      destruct (Pylru.items c) as [|e0 l0] using rev_ind; [done|].
      rewrite removelast_last in Hin. rewrite elem_of_app. by left.
Qed.

Lemma history_job_length (s : chain_state) k :
  0 ≤ max_send s →
  Z.of_nat (length (history_job s k)) ≤ max_send s / 97
  ∧ (max_send s / 97 < Z.of_nat (length (bp_history (bp s) k)) →
     Z.of_nat (length (history_job s k)) = max_send s / 97).
Proof.
  intros Hms. unfold history_job, bp_get_history, scan.
  assert (0 ≤ max_send s / 97) by (apply Z.div_pos; lia).
  rewrite length_take. lia.
Qed.

Lemma step_limited ms s e s' r :
  0 ≤ ms → Pylru.wf cache_size (history_cache s) → limited ms s →
  step s e = Some (s', r) →
  limited ms s' ∧ (∀ v, r = History v → Z.of_nat (length v) ≤ ms / 97).
Proof.
  intros Hms Hwf (Hmax & Hc & Ht).
  destruct e as [h T|k|k|tid|tid|h| | |b dh]; cbn [step].
  - destruct (notify_spec cache_size _ h T Hwf) as (c' & -> & Hwf' & Hi).
    intros [= <- <-]. split; [|done]. split; [done|]. split; [|done].
    intros k v. cbn. rewrite Hi, list_elem_of_filter. intros [_ ?]. eauto.
  - destruct (decide (k ∈ Pylru.keys (history_cache s))) as [Hk|Hk].
    + destruct (get_history_call_hit s k Hwf Hk) as (v & c' & -> & Hv & Hwf' & Hi).
      rewrite (wf_peek cache_size _ k Hwf) in Hv. apply alookup_Some in Hv.
      intros [= <- <-]. split; [|intros ? [= <-]; eauto].
      split; [done|]. split; [|done].
      intros k' v'. cbn. rewrite Hi, elem_of_cons. unfold Pylru.aremove.
      rewrite list_elem_of_filter. intros [[= -> ->]|[_ ?]]; eauto.
    + rewrite get_history_call_miss by done. intros [= <- <-].
      split; [|done]. split; [done|]. split; [done|].
      intros tid k' v'. cbn. rewrite lookup_insert.
      case_decide; [done|]. apply Ht.
  - intros [= <- <-]. split; [|done]. split; [done|]. split; [done|].
    intros tid k' v'. cbn. rewrite lookup_insert.
    case_decide; [done|]. apply Ht.
  - destruct (tasks s !! tid) as [[k [v|]|k [v|]]|] eqn:E; try done.
    + intros [= <- <-]. split; [|done]. split; [done|]. split; [done|].
      intros tid' k' v'. cbn. rewrite lookup_insert.
      case_decide; [|apply Ht]. intros [= <- <-].
      rewrite <- Hmax. apply history_job_length. lia.
    + intros [= <- <-]. split; [|done]. split; [done|]. split; [done|].
      intros tid' k' v'. cbn. rewrite lookup_insert.
      case_decide; [done|apply Ht].
  - destruct (tasks s !! tid) as [[k [v|]|k [v|]]|] eqn:E; try done.
    + rewrite get_history_resume_eq by done. intros [= <- <-].
      pose proof (Ht tid k v E) as Hv.
      split; [|intros ? [= <-]; done]. split; [done|]. split.
      * intros k' v' Hin. cbn in Hin.
        apply (setitem_items_incl cache_size) in Hin as [[= -> ->]|Hin];
          [done|eauto|done|unfold cache_size; lia].
      * intros tid' k' v'. cbn. rewrite lookup_delete.
        case_decide; [done|apply Ht].
    + intros [= <- <-]. split; [|done]. split; [done|]. split; [done|].
      intros tid' k' v'. cbn. rewrite lookup_delete.
      case_decide; [done|apply Ht].
  - intros [= <- <-]. split; [|intros v; by destruct (raw_header s h)]. done.
  - by intros [= <- <-].
  - by intros [= <- <-].
  - by intros [= <- <-].
Qed.

Lemma run_limited ms tr : ∀ s g s' g' rs,
  0 ≤ ms → Pylru.wf cache_size (history_cache s) → limited ms s →
  run s g tr = Some (s', g', rs) →
  limited ms s' ∧ (∀ v, History v ∈ rs → Z.of_nat (length v) ≤ ms / 97).
Proof.
  induction tr as [|e tr IH]; intros s g s' g' rs Hms Hwf Hl; cbn [run].
  - intros [= <- <- <-]. split; [done|]. intros v Hv. by apply elem_of_nil in Hv.
  - destruct (step s e) as [[s1 r]|] eqn:E; [|done].
    destruct (run s1 (track s g e) tr) as [[[s2 g2] rs2]|] eqn:E2; [|done].
    intros [= <- <- <-].
    destruct (step_limited ms s e s1 r Hms Hwf Hl E) as [Hl1 Hr].
    destruct (IH s1 _ s2 g2 rs2 Hms (step_wf s e s1 r Hwf E) Hl1 E2) as [Hl2 Hrs].
    split; [done|]. intros v [Heq|Hin]%elem_of_cons; [by apply Hr|by apply Hrs].
Qed.

(** ** The order of the keys *)
Lemma fmap_removelast {A B} (f : A → B) (l : list A) :
  f <$> removelast l = removelast (f <$> l).
Proof.
  destruct l as [|x0 l0] using rev_ind; [done|].
  rewrite fmap_app, removelast_last. change (f <$> [x0]) with [f x0].
  by rewrite removelast_last.
Qed.

Lemma removelast_sublist {A} (l : list A) : removelast l `sublist_of` l.
Proof.
  destruct l as [|x0 l0] using rev_ind; [done|].
  rewrite removelast_last. by apply sublist_inserts_r.
Qed.

Lemma StronglySorted_sublist {A} (R : A → A → Prop) (l1 l2 : list A) :
  l1 `sublist_of` l2 → StronglySorted R l2 → StronglySorted R l1.
Proof.
  induction 1 as [|x l1 l2 Hsub IH|x l1 l2 Hsub IH]; [done| |].
  - rewrite !StronglySorted_cons. intros [Hall Hs]. split; [|auto].
    rewrite Forall_forall in *. intros y Hy. apply Hall.
    by apply (sublist_subseteq _ _ Hsub).
  - rewrite StronglySorted_cons. intros [_ Hs]. auto.
Qed.

Lemma setitem_keys size (c : hcache) k v :
  Pylru.wf size c → (0 < size)%nat →
  (k ∈ Pylru.keys c →
     Pylru.keys (Pylru.setitem c k v) = k :: filter (λ x, x ≠ k) (Pylru.keys c))
  ∧ (k ∉ Pylru.keys c → (length (Pylru.keys c) < size)%nat →
     Pylru.keys (Pylru.setitem c k v) = k :: Pylru.keys c)
  ∧ (k ∉ Pylru.keys c → length (Pylru.keys c) = size →
     Pylru.keys (Pylru.setitem c k v) = k :: removelast (Pylru.keys c)).
Proof.
  intros Hwf Hpos. unfold Pylru.keys. rewrite length_fmap. split; [|split].
  - intros Hk. destruct (wf_setitem_hit size c k v Hwf Hk) as [_ ->].
    by rewrite fmap_cons, aremove_keys.
  - intros Hk Hlt. by destruct (wf_setitem_room size c k v Hwf Hk Hlt) as [_ ->].
  - intros Hk Hlen.
    destruct (wf_setitem_full size c k v Hwf Hk Hlen Hpos) as [_ ->].
    by rewrite fmap_cons, fmap_removelast.
Qed.

Lemma setitem_keys_sublist size (c : hcache) k v :
  Pylru.wf size c → (0 < size)%nat →
  ∃ ks, Pylru.keys (Pylru.setitem c k v) = k :: ks
        ∧ ks `sublist_of` Pylru.keys c ∧ k ∉ ks.
Proof.
  intros Hwf Hpos.
  destruct (setitem_keys size c k v Hwf Hpos) as (Hhit & Hroom & Hfull).
  destruct (decide (k ∈ Pylru.keys c)) as [Hk|Hk].
  - eexists. split; [by apply Hhit|]. split; [apply sublist_filter|].
    rewrite list_elem_of_filter. tauto.
  - assert (length (Pylru.keys c) ≤ size)%nat as Hle.
    { unfold Pylru.keys. rewrite length_fmap. by apply wf_length. }
    destruct (decide (length (Pylru.keys c) < size)%nat) as [Hlt|Hge].
    + eexists. split; [by apply Hroom|]. done.
    + eexists. split; [apply Hfull; [done|lia]|].
      split; [apply removelast_sublist|].
      intros Hin. apply Hk. by apply (sublist_subseteq _ _ (removelast_sublist _)).
Qed.

Lemma stamp_of_touch g k k' :
  stamp_of (touch g k) k' = if decide (k = k') then clock g else stamp_of g k'.
Proof.
  unfold stamp_of, touch. cbn. rewrite lookup_insert. by case_decide.
Qed.

Lemma recency_touch (g : ghost) (ks ks' : list hashX) k :
  StronglySorted (λ a b, stamp_of g b < stamp_of g a)%nat ks →
  (∀ k', k' ∈ ks → (stamp_of g k' < clock g)%nat) →
  ks' `sublist_of` ks → k ∉ ks' →
  StronglySorted (λ a b, stamp_of (touch g k) b < stamp_of (touch g k) a)%nat (k :: ks')
  ∧ ∀ k', k' ∈ k :: ks' → (stamp_of (touch g k) k' < clock (touch g k))%nat.
Proof.
  intros Hs Hb Hsub Hk.
  assert (∀ k', k' ∈ ks' → stamp_of (touch g k) k' = stamp_of g k') as Hsame.
  { intros k' Hk'. rewrite stamp_of_touch, decide_False; [done|]. by intros ->. }
  pose proof (sublist_subseteq _ _ Hsub) as Hin.
  split.
  - apply StronglySorted_cons. split.
    + apply Forall_forall. intros k' Hk'.
      rewrite (Hsame k' Hk'), stamp_of_touch, decide_True by done. auto.
    + pose proof (StronglySorted_sublist _ _ _ Hsub Hs) as Hs'.
      clear -Hs' Hsame. induction Hs' as [|a l Hl IH Hall]; [constructor|].
      constructor.
      * apply IH. intros k' Hk'. apply Hsame. by right.
      * rewrite Forall_forall in *. intros b Hb.
        rewrite !Hsame by (by (left + (right; done))). auto.
  - intros k' [->|Hk']%elem_of_cons.
    + rewrite stamp_of_touch, decide_True by done. cbn. lia.
    + rewrite (Hsame k' Hk'). cbn. specialize (Hb k' (Hin _ Hk')). lia.
Qed.

Lemma filter_keys_sublist (Q : hashX * list hist_record → Prop)
    `{!∀ e, Decision (Q e)} (es : list (hashX * list hist_record)) :
  (filter Q es).*1 `sublist_of` es.*1.
Proof.
  induction es as [|e es IH]; [done|].
  rewrite filter_cons, fmap_cons.
  destruct (decide (Q e)); [rewrite fmap_cons; by apply sublist_skip|].
  by apply sublist_cons.
Qed.

Lemma step_recency s g e s' r :
  Pylru.wf cache_size (history_cache s) → recency s g →
  step s e = Some (s', r) → recency s' (track s g e).
Proof.
  intros Hwf [Hs Hb].
  destruct e as [h T|k|k|tid|tid|h| | |b dh]; cbn [step track].
  - destruct (notify_spec cache_size _ h T Hwf) as (c' & -> & Hwf' & Hi).
    intros [= <- <-]. unfold recency. cbn [history_cache set_cache].
    assert (Pylru.keys c' `sublist_of` Pylru.keys (history_cache s)) as Hsub.
    { unfold Pylru.keys. rewrite Hi. apply filter_keys_sublist. }
    split.
    + by apply (StronglySorted_sublist _ _ _ Hsub).
    + intros k Hk. apply (Hb k). by apply (sublist_subseteq _ _ Hsub).
  - destruct (decide (k ∈ Pylru.keys (history_cache s))) as [Hk|Hk].
    + destruct (get_history_call_hit s k Hwf Hk) as (v & c' & -> & _ & Hwf' & Hi).
      rewrite (wf_contains cache_size _ k Hwf), bool_decide_eq_true_2 by done.
      intros [= <- <-]. unfold recency. cbn [history_cache set_cache].
      unfold Pylru.keys at 1 2. rewrite Hi, fmap_cons, aremove_keys. cbn [fst].
      apply (recency_touch g (Pylru.keys (history_cache s))); [done|done| |].
      * apply sublist_filter.
      * rewrite list_elem_of_filter. tauto.
    + rewrite get_history_call_miss by done.
      rewrite (wf_contains cache_size _ k Hwf), bool_decide_eq_false_2 by done.
      by intros [= <- <-].
  - by intros [= <- <-].
  - destruct (tasks s !! tid) as [[k [v|]|k [v|]]|]; intros [= <- <-]; done.
  - destruct (tasks s !! tid) as [[k [v|]|k [v|]]|]; try done.
    + rewrite get_history_resume_eq by done. intros [= <- <-].
      unfold recency. cbn [history_cache set_cache set_tasks].
      destruct (setitem_keys_sublist cache_size (history_cache s) k v Hwf)
        as (ks & -> & Hsub & Hk); [unfold cache_size; lia|].
      by apply (recency_touch _ (Pylru.keys (history_cache s))).
    + by intros [= <- <-].
  - by intros [= <- <-].
  - by intros [= <- <-].
  - by intros [= <- <-].
  - by intros [= <- <-].
Qed.

Lemma step_started_ok s g e s' r :
  started_ok s g → step s e = Some (s', r) → started_ok s' (track s g e).
Proof.
  intros Hok.
  destruct e as [h T|k|k|tid|tid|h| | |b dh]; cbn [step track].
  - destruct (notify _ _ _) as [c err]. intros [= <- <-] tid k res Ht.
    destruct (Hok tid k res Ht) as (s0 & ? & ?). exists s0. cbn. split; [done|lia].
  - unfold get_history_call.
    destruct (Pylru.contains (history_cache s) k).
    + unfold get_history_return.
      destruct (Pylru.getitem (history_cache s) k) as [[v c]|];
        intros [= <- <-]; exact Hok.
    + intros [= <- <-] tid k' res. cbn. rewrite !lookup_insert.
      case_decide; [intros _; eauto|apply Hok].
  - intros [= <- <-] tid k' res. cbn. rewrite lookup_insert.
    case_decide; [done|apply Hok].
  - destruct (tasks s !! tid) as [[k [v|]|k [v|]]|] eqn:E; try done;
      intros [= <- <-] tid' k' res; cbn; rewrite lookup_insert;
      (case_decide; [|apply Hok]).
    + intros [= <- <-]. subst tid'. eapply Hok, E.
    + done.
  - destruct (tasks s !! tid) as [[k [v|]|k [v|]]|] eqn:E; try done.
    + unfold get_history_resume, get_history_return. cbn [history_cache set_cache set_tasks].
      destruct (Pylru.getitem _ k) as [[v' c]|]; intros [= <- <-] tid' k' res; cbn;
        rewrite !lookup_delete; (case_decide; [done|apply Hok]).
    + intros [= <- <-] tid' k' res. cbn. rewrite lookup_delete.
      case_decide; [done|apply Hok].
  - by intros [= <- <-].
  - by intros [= <- <-].
  - by intros [= <- <-].
  - by intros [= <- <-].
Qed.

Lemma run_invariants tr : ∀ s g s' g' rs,
  Pylru.wf cache_size (history_cache s) → recency s g → started_ok s g →
  run s g tr = Some (s', g', rs) →
  Pylru.wf cache_size (history_cache s') ∧ recency s' g' ∧ started_ok s' g'.
Proof.
  induction tr as [|e tr IH]; intros s g s' g' rs Hwf Hr Hok; cbn [run].
  - by intros [= <- <- <-].
  - destruct (step s e) as [[s1 r]|] eqn:E; [|done].
    destruct (run s1 (track s g e) tr) as [[[s2 g2] rs2]|] eqn:E2; [|done].
    intros [= <- <- <-]. eapply IH; [| | |exact E2].
    + eapply step_wf; eauto.
    + eapply step_recency; eauto.
    + eapply step_started_ok; eauto.
Qed.

Lemma reachable_invariants s g :
  reachable s g →
  Pylru.wf cache_size (history_cache s) ∧ recency s g ∧ started_ok s g.
Proof.
  intros (b & dh & ms & tr & rs & Hrun).
  eapply run_invariants; [| | |exact Hrun].
  - apply wf_new.
  - unfold recency. cbn [init history_cache]. unfold Pylru.keys.
    rewrite items_new. split; [constructor|].
    intros k Hk. by apply elem_of_nil in Hk.
  - intros tid k res. cbn. by rewrite lookup_empty.
Qed.

(** C1 as stated fails.  A computation for key 7 begins at sequence 0; the
    store advances and the notification touching 7 (sequence 1) is delivered
    before the result is installed; the result is then returned and kept:
    the cache holds 7 with the old history, from the computation started at
    sequence 0, while the store already has a longer one. *)
Lemma stale_result_is_retained :
  let b0 := BlockProcessor (λ _, [HistRecord 1]) (λ _, []) 10 (λ _ _, inr ([], 0)) in
  let b1 := BlockProcessor (λ _, [HistRecord 1; HistRecord 2]) (λ _, []) 11
              (λ _ _, inr ([], 0)) in
  ∃ s g,
    run (init b0 10 1000000) ghost0
      [GetHistory 7%N; Worker 0; Advance b1 11; Notify 11 {[7%N]}; Resume 0]
    = Some (s, g, [Suspended 0; Done; Done; Done; History [HistRecord 1]])
    ∧ seqno g = 1%nat
    ∧ Pylru.peek (history_cache s) 7%N = Some [HistRecord 1]
    ∧ origin g !! 7%N = Some 0%nat
    ∧ history_job s 7%N = [HistRecord 1; HistRecord 2]
    ∧ ¬ (Pylru.contains (history_cache s) 7%N = false
         ∨ ∃ o, origin g !! 7%N = Some o ∧ (1 ≤ o)%nat).
Proof.
  intros b0 b1. eexists _, _. split; [vm_compute; reflexivity|].
  split; [reflexivity|]. split; [vm_compute; reflexivity|].
  split; [vm_compute; reflexivity|]. split; [vm_compute; reflexivity|].
  intros [H|(o & H & Hle)].
  - vm_compute in H. discriminate H.
  - vm_compute in H. injection H as <-. lia.
Qed.

(** C1, amended: whatever notifications were delivered since a computation for
    [k] began, when its result [v] arrives the coroutine installs it and
    returns it.  The start sequence [s0] of the job is at most the current
    one and plays no part: afterwards [k] is the most recently used entry of
    the cache and holds [v]. *)
Theorem resume_installs_result (s : chain_state) (g : ghost) (tid : nat)
    (k : hashX) (v : list hist_record) :
  reachable s g → tasks s !! tid = Some (HistoryJob k (Some v)) →
  ∃ s' s0 es,
    step s (Resume tid) = Some (s', History v)
    ∧ started g !! tid = Some s0 ∧ (s0 ≤ seqno g)%nat
    ∧ Pylru.items (history_cache s') = (k, v) :: es
    ∧ Pylru.peek (history_cache s') k = Some v
    ∧ origin (track s g (Resume tid)) !! k = Some s0.
Proof.
  intros Hr Ht. destruct (reachable_invariants s g Hr) as (Hwf & _ & Hok).
  destruct (Hok tid k _ Ht) as (s0 & Hs0 & Hle).
  destruct (wf_setitem cache_size (history_cache s) k v Hwf) as [Hwf' [es Hes]].
  { unfold cache_size. lia. }
  eexists _, s0, es. cbn [step track]. rewrite Ht.
  rewrite get_history_resume_eq by done.
  split; [reflexivity|]. split; [done|]. split; [done|].
  cbn [history_cache set_cache set_tasks]. split; [done|]. split.
  - rewrite (wf_peek cache_size _ k Hwf'), Hes. cbn. by rewrite decide_True.
  - cbn. by rewrite lookup_insert_eq, Hs0.
Qed.

Lemma resume_installs_result_witness :
  let b0 := BlockProcessor (λ _, [HistRecord 1]) (λ _, []) 10 (λ _ _, inr ([], 0)) in
  let b1 := BlockProcessor (λ _, [HistRecord 1; HistRecord 2]) (λ _, []) 11
              (λ _ _, inr ([], 0)) in
  ∃ s g rs s',
    run (init b0 10 1000000) ghost0
      [GetHistory 7%N; Worker 0; Advance b1 11; Notify 11 {[7%N]}] = Some (s, g, rs)
    ∧ seqno g = 1%nat ∧ started g !! 0%nat = Some 0%nat
    ∧ step s (Resume 0) = Some (s', History [HistRecord 1])
    ∧ Pylru.peek (history_cache s') 7%N = Some [HistRecord 1].
Proof.
  intros b0 b1.
  destruct (run (init b0 10 1000000) ghost0
              [GetHistory 7%N; Worker 0; Advance b1 11; Notify 11 {[7%N]}])
    as [[[s g] rs]|] eqn:E; [|vm_compute in E; discriminate E].
  assert (reachable s g) as Hr by (eexists b0, 10, 1000000, _, rs; exact E).
  assert (tasks s !! 0%nat = Some (HistoryJob 7%N (Some [HistRecord 1]))
          ∧ seqno g = 1%nat ∧ started g !! 0%nat = Some 0%nat) as (Ht & Hseq & Hst).
  { vm_compute in E. injection E as <- <- _. repeat split; vm_compute; reflexivity. }
  destruct (resume_installs_result s g 0 7%N _ Hr Ht)
    as (s' & s0 & es & Hstep & _ & _ & _ & Hpeek & _).
  exists s, g, rs, s'. repeat split; assumption.
Defined.

(** C8 as stated fails.  The history of key 7 is cached, [shutdown] is
    awaited, and a [get_history] call for key 7 made afterwards is served as
    any other: it returns the cached history. *)
Lemma history_served_after_shutdown :
  let b := BlockProcessor (λ _, [HistRecord 1]) (λ _, [UtxoRecord 2]) 10
             (λ _ _, inr ([Byte.x00], 1)) in
  ∃ s g,
    run (init b 10 1000000) ghost0 [GetHistory 7%N; Worker 0; Resume 0; Shutdown]
    = Some (s, g, [Suspended 0; Done; History [HistRecord 1]; Done])
    ∧ bp_shutdown s = true
    ∧ ∃ s', step s (GetHistory 7%N) = Some (s', History [HistRecord 1]).
Proof.
  intros b. eexists _, _. split; [vm_compute; reflexivity|].
  split; [reflexivity|]. eexists. vm_compute. reflexivity.
Qed.

(** C8, amended: [shutdown] awaits the block processor's shutdown and leaves
    the facade's cache as it is, and [get_history] looks at no shutdown state.
    So a [get_history] call for a key that is cached is served after shutdown
    as before it: in every state that has the cache of before the shutdown,
    whatever its store, its jobs and its flag are, the call returns the cached
    history, queues no job and leaves store, jobs and flag alone. *)
Theorem cache_hit_ignores_shutdown (s : chain_state) (g : ghost) (k : hashX)
    (s1 : chain_state) :
  reachable s g → k ∈ Pylru.keys (history_cache s) →
  history_cache s1 = history_cache s →
  step s Shutdown = Some (shutdown s, Done)
  ∧ history_cache (shutdown s) = history_cache s
  ∧ bp_shutdown (shutdown s) = true
  ∧ ∃ v s', step s1 (GetHistory k) = Some (s', History v)
            ∧ Pylru.peek (history_cache s) k = Some v
            ∧ tasks s' = tasks s1 ∧ next_task s' = next_task s1
            ∧ bp s' = bp s1 ∧ bp_shutdown s' = bp_shutdown s1.
Proof.
  intros Hr Hk Hc. pose proof (reachable_wf s g Hr) as Hwf.
  split; [done|]. split; [done|]. split; [done|].
  rewrite <- Hc in Hwf, Hk.
  destruct (get_history_call_hit s1 k Hwf Hk) as (v & c' & E & Hv & _).
  exists v, (set_cache s1 c'). cbn [step]. rewrite E, <- Hc. by repeat split.
Qed.

Lemma cache_hit_ignores_shutdown_witness :
  let b := BlockProcessor (λ _, [HistRecord 1]) (λ _, [UtxoRecord 2]) 10
             (λ _ _, inr ([Byte.x00], 1)) in
  let b' := BlockProcessor (λ _, []) (λ _, []) 0 (λ _ _, inl (DBError 1)) in
  ∃ s g rs s' s'',
    run (init b 10 1000000) ghost0 [GetHistory 7%N; Worker 0; Resume 0]
    = Some (s, g, rs)
    ∧ step (shutdown s) (GetHistory 7%N) = Some (s', History [HistRecord 1])
    ∧ step (ChainState (history_cache s) b' true 0 0 ∅ 0) (GetHistory 7%N)
      = Some (s'', History [HistRecord 1]).
Proof.
  intros b b'.
  destruct (run (init b 10 1000000) ghost0 [GetHistory 7%N; Worker 0; Resume 0])
    as [[[s g] rs]|] eqn:E; [|vm_compute in E; discriminate E].
  assert (reachable s g) as Hr by (eexists b, 10, 1000000, _, rs; exact E).
  assert ((7%N ∈ Pylru.keys (history_cache s))
          ∧ Pylru.peek (history_cache s) 7%N = Some [HistRecord 1]) as [Hk Hp].
  { pose proof E as E'. vm_compute in E'. injection E' as <- _ _.
    split; [apply (bool_decide_unpack _)|]; vm_compute; reflexivity. }
  destruct (cache_hit_ignores_shutdown s g 7%N (shutdown s) Hr Hk eq_refl)
    as (_ & _ & _ & v & s' & Hs & Hv & _).
  destruct (cache_hit_ignores_shutdown s g 7%N
              (ChainState (history_cache s) b' true 0 0 ∅ 0) Hr Hk eq_refl)
    as (_ & _ & _ & v2 & s'' & Hs2 & Hv2 & _).
  rewrite Hp in Hv, Hv2. injection Hv as <-. injection Hv2 as <-.
  by exists s, g, rs, s', s''.
Defined.

(** C3: in every reachable state the history cache holds at most 256 entries.
    A hit moves the key to the front and an installation puts the key at the
    front, both stamping it with the current time.  An installation of a new
    key into a full cache drops the last key of the order and only that one,
    and that key's last access is older than that of every other entry. *)
Theorem history_cache_bounded_lru (s : chain_state) (g : ghost) :
  reachable s g →
  (Pylru.len (history_cache s) ≤ 256)%nat
  ∧ (∀ k, k ∈ Pylru.keys (history_cache s) → (stamp_of g k < clock g)%nat)
  ∧ (∀ k, k ∈ Pylru.keys (history_cache s) →
       ∃ s' v, step s (GetHistory k) = Some (s', History v)
               ∧ Pylru.keys (history_cache s')
                 = k :: filter (λ x, x ≠ k) (Pylru.keys (history_cache s))
               ∧ stamp_of (track s g (GetHistory k)) k = clock g)
  ∧ (∀ tid k v, tasks s !! tid = Some (HistoryJob k (Some v)) →
       ∃ s', step s (Resume tid) = Some (s', History v)
             ∧ stamp_of (track s g (Resume tid)) k = clock g
             ∧ (k ∈ Pylru.keys (history_cache s) →
                Pylru.keys (history_cache s')
                = k :: filter (λ x, x ≠ k) (Pylru.keys (history_cache s)))
             ∧ (k ∉ Pylru.keys (history_cache s) →
                (Pylru.len (history_cache s) < 256)%nat →
                Pylru.keys (history_cache s') = k :: Pylru.keys (history_cache s))
             ∧ (k ∉ Pylru.keys (history_cache s) →
                Pylru.len (history_cache s) = 256%nat →
                ∃ rest victim,
                  Pylru.keys (history_cache s) = rest ++ [victim]
                  ∧ Pylru.keys (history_cache s') = k :: rest
                  ∧ ∀ k', k' ∈ rest → (stamp_of g victim < stamp_of g k')%nat)).
Proof.
  intros Hr. destruct (reachable_invariants s g Hr) as (Hwf & [Hs Hb] & _).
  assert (Pylru.len (history_cache s) = length (Pylru.keys (history_cache s))) as Hlen.
  { rewrite (wf_len cache_size _ Hwf). unfold Pylru.keys. by rewrite length_fmap. }
  split; [|split; [exact Hb|split]].
  - rewrite (wf_len cache_size _ Hwf). apply (wf_length cache_size _ Hwf).
  - intros k Hk.
    destruct (get_history_call_hit s k Hwf Hk) as (v & c' & E & _ & _ & Hi).
    exists (set_cache s c'), v. cbn [step track]. rewrite E.
    split; [done|]. split.
    + cbn [history_cache set_cache]. unfold Pylru.keys at 1.
      by rewrite Hi, fmap_cons, aremove_keys.
    + rewrite (wf_contains cache_size _ k Hwf), bool_decide_eq_true_2 by done.
      by rewrite stamp_of_touch, decide_True.
  - intros tid k v Ht. eexists. cbn [step track]. rewrite Ht.
    rewrite get_history_resume_eq by done. split; [reflexivity|].
    cbn [history_cache set_cache set_tasks].
    destruct (setitem_keys cache_size (history_cache s) k v Hwf)
      as (Hhit & Hroom & Hfull); [unfold cache_size; lia|].
    split; [by rewrite stamp_of_touch, decide_True|].
    split; [exact Hhit|]. split.
    + intros Hk Hlt. apply Hroom; [done|]. unfold cache_size. lia.
    + intros Hk Hfl. rewrite Hfull; [|done|unfold cache_size; by rewrite <- Hlen].
      destruct (exists_last (l:=Pylru.keys (history_cache s)))
        as (rest & victim & Hkeys).
      { intros Hnil. rewrite Hlen, Hnil in Hfl. discriminate Hfl. }
      exists rest, victim. rewrite Hkeys, removelast_last.
      split; [done|]. split; [done|].
      intros k' Hk'. rewrite Hkeys in Hs.
      apply (StronglySorted_app_1_elem_of _ _ _ k' victim Hs Hk'). left.
Qed.

Lemma history_cache_bounded_lru_witness :
  let b := BlockProcessor (λ _, [HistRecord 1]) (λ _, []) 10 (λ _ _, inr ([], 0)) in
  ∃ s g rs,
    run (init b 10 1000000) ghost0
      (flat_map (λ i, [GetHistory (N.of_nat i); Worker i; Resume i]) (seq 0 256)
       ++ [GetHistory 0%N; GetHistory 999%N; Worker 256]) = Some (s, g, rs)
    ∧ Pylru.len (history_cache s) = 256%nat
    ∧ ∃ s', step s (Resume 256) = Some (s', History [HistRecord 1])
            ∧ last (Pylru.keys (history_cache s)) = Some 1%N
            ∧ Pylru.keys (history_cache s')
              = 999%N :: removelast (Pylru.keys (history_cache s))
            ∧ (stamp_of g 1%N < stamp_of g 0%N)%nat.
Proof.
  intros b.
  set (r := run (init b 10 1000000) ghost0
      (flat_map (λ i, [GetHistory (N.of_nat i); Worker i; Resume i]) (seq 0 256)
       ++ [GetHistory 0%N; GetHistory 999%N; Worker 256])).
  assert (from_option (λ p, tasks p.1.1 !! 256%nat) None r
          = Some (HistoryJob 999%N (Some [HistRecord 1]))) as Ht
    by (vm_compute; reflexivity).
  assert (from_option (λ p, Pylru.len (history_cache p.1.1)) 0%nat r = 256%nat)
    as Hlen by (vm_compute; reflexivity).
  assert (from_option (λ p, last (Pylru.keys (history_cache p.1.1))) None r
          = Some 1%N) as Hlast by (vm_compute; reflexivity).
  assert (from_option
            (λ p, bool_decide (999%N ∉ Pylru.keys (history_cache p.1.1))) false r
          = true) as Hnew by (vm_compute; reflexivity).
  assert (from_option
            (λ p, bool_decide (0%N ∈ removelast (Pylru.keys (history_cache p.1.1))))
            false r = true) as Hzero by (vm_compute; reflexivity).
  destruct r as [[[s g] rs]|] eqn:E; [|discriminate Ht]. subst r.
  cbn [from_option fst] in Ht, Hlen, Hlast, Hnew, Hzero.
  apply bool_decide_eq_true in Hnew, Hzero.
  assert (reachable s g) as Hr by (eexists b, 10, 1000000, _, rs; exact E).
  destruct (history_cache_bounded_lru s g Hr) as (Hle & _ & _ & Hinst).
  destruct (Hinst 256%nat 999%N _ Ht) as (s' & Hstep & _ & _ & _ & Hfull).
  destruct (Hfull Hnew Hlen) as (rest & victim & Hkeys & Hkeys' & Hold).
  exists s, g, rs. split; [reflexivity|]. split; [exact Hlen|].
  exists s'. split; [exact Hstep|]. split; [exact Hlast|].
  rewrite Hkeys in Hlast, Hzero |- *. rewrite removelast_last in Hzero |- *.
  split; [exact Hkeys'|].
  rewrite last_snoc in Hlast. injection Hlast as ->. by apply Hold.
Defined.

(** ** How long an entry stays *)
Lemma elem_of_pending (s : chain_state) k :
  k ∈ pending s ↔ ∃ tid res, tasks s !! tid = Some (HistoryJob k res).
Proof.
  unfold pending. rewrite elem_of_list_to_set, list_elem_of_omap. split.
  - intros ([tid t] & Hin & Ht). apply elem_of_map_to_list in Hin.
    cbn in Ht. destruct t as [k' res|k' res]; [|done].
    injection Ht as ->. eauto.
  - intros (tid & res & Ht). exists (tid, HistoryJob k res).
    split; [by apply elem_of_map_to_list|done].
Qed.

Lemma elem_of_requested (tr : list event) k :
  k ∈ requested tr ↔ GetHistory k ∈ tr.
Proof.
  unfold requested. rewrite elem_of_list_to_set, list_elem_of_omap. split.
  - intros (e & Hin & He). destruct e; try done. by injection He as ->.
  - intros Hin. by exists (GetHistory k).
Qed.

Lemma NoDup_length_le_size (l : list hashX) (X : gset hashX) :
  NoDup l → (∀ x, x ∈ l → x ∈ X) → (length l ≤ size X)%nat.
Proof.
  intros Hnd Hin. rewrite <- (size_list_to_set (C:=gset hashX) l Hnd).
  apply subseteq_size. intros x. rewrite elem_of_list_to_set. apply Hin.
Qed.

Lemma kept_front (A : gset hashX) k v (s : chain_state) es :
  (∀ tid k' res, tasks s !! tid = Some (HistoryJob k' res) → k' ∈ A) →
  Pylru.items (history_cache s) = (k, v) :: es → kept A k s.
Proof.
  intros Ht Hi. split; [done|]. exists [], v, es. split; [done|].
  intros e He. by apply elem_of_nil in He.
Qed.

(** Moving or putting [k'] to the front keeps [k]. *)
Lemma kept_to_front (A : gset hashX) (k k' : hashX) (v' v : list hist_record)
    (front back : list (hashX * list hist_record)) :
  k' ∈ A →
  (∀ e, e ∈ front → e.1 ∈ A) →
  ∃ front2 v2 back2,
    (k', v') :: Pylru.aremove k' (front ++ (k, v) :: back)
    = front2 ++ (k, v2) :: back2
    ∧ ∀ e, e ∈ front2 → e.1 ∈ A.
Proof.
  intros Hk' Hfront. destruct (decide (k' = k)) as [->|Hne].
  - exists [], v', (Pylru.aremove k (front ++ (k, v) :: back)).
    split; [done|]. intros e He. by apply elem_of_nil in He.
  - exists ((k', v') :: Pylru.aremove k' front), v, (Pylru.aremove k' back).
    split.
    + unfold Pylru.aremove. rewrite filter_app, filter_cons_True by (cbn; congruence).
      done.
    + intros e [->|He]%elem_of_cons; [done|].
      unfold Pylru.aremove in He. apply list_elem_of_filter in He as [_ He]. auto.
Qed.

Lemma kept_install_full (A : gset hashX) (k k' : hashX) (v' v : list hist_record)
    (front back : list (hashX * list hist_record)) :
  NoDup (front ++ (k, v) :: back).*1 → k' ∉ (front ++ (k, v) :: back).*1 →
  length (front ++ (k, v) :: back) = cache_size →
  k' ∈ A → (∀ e, e ∈ front → e.1 ∈ A) →
  (size (A ∖ {[k]}) < cache_size)%nat →
  ∃ back2, removelast (front ++ (k, v) :: back) = front ++ (k, v) :: back2.
Proof.
  intros Hnd Hk' Hlen HA Hfront Hsize.
  destruct back as [|x back2 _] using rev_ind.
  - exfalso.
    rewrite fmap_app in Hnd, Hk'. cbn in Hnd, Hk'.
    apply NoDup_app in Hnd as (Hnd & Hsep & _).
    rewrite elem_of_app, list_elem_of_singleton in Hk'.
    assert (length (k' :: front.*1) ≤ size (A ∖ {[k]}))%nat as Hle.
    { apply NoDup_length_le_size.
      - apply NoDup_cons. split; [tauto|done].
      - intros x [->|Hx]%elem_of_cons.
        + apply elem_of_difference. split; [done|].
          rewrite elem_of_singleton. tauto.
        + apply elem_of_difference. split.
          * apply list_elem_of_fmap in Hx as (e & -> & He). auto.
          * rewrite elem_of_singleton. intros ->.
            apply (Hsep k Hx). apply list_elem_of_here. }
    rewrite length_app in Hlen. cbn in Hle, Hlen. rewrite length_fmap in Hle. lia.
  - exists back2.
    replace (front ++ (k, v) :: back2 ++ [x]) with ((front ++ (k, v) :: back2) ++ [x])
      by (by rewrite <- app_assoc).
    apply removelast_last.
Qed.

Lemma step_kept (A : gset hashX) (k : hashX) s e s' r :
  Pylru.wf cache_size (history_cache s) → kept A k s →
  (∀ k', e = GetHistory k' → k' ∈ A) →
  (∀ h T, e = Notify h T → k ∉ T) →
  (size (A ∖ {[k]}) < cache_size)%nat →
  step s e = Some (s', r) → kept A k s'.
Proof.
  intros Hwf [Ht (front & v & back & Hi & Hfront)] Hreq Hnot Hsize.
  destruct e as [h T|k'|k'|tid|tid|h| | |b dh]; cbn [step].
  - destruct (notify_spec cache_size _ h T Hwf) as (c' & -> & Hwf' & Hi').
    intros [= <- <-]. split; [done|]. cbn [history_cache set_cache].
    rewrite Hi', Hi, filter_app, filter_cons_True by (cbn; by eapply Hnot).
    eexists _, v, _. split; [done|].
    intros e [_ He]%list_elem_of_filter. auto.
  - destruct (decide (k' ∈ Pylru.keys (history_cache s))) as [Hk|Hk].
    + destruct (get_history_call_hit s k' Hwf Hk) as (v' & c' & -> & _ & _ & Hi').
      intros [= <- <-]. split; [done|]. cbn [history_cache set_cache].
      rewrite Hi', Hi. apply kept_to_front; [by apply Hreq|done].
    + rewrite get_history_call_miss by done. intros [= <- <-]. split.
      * intros tid k2 res. cbn. rewrite lookup_insert.
        case_decide; [intros [= <- <-]; by apply Hreq|apply Ht].
      * by exists front, v, back.
  - intros [= <- <-]. split.
    + intros tid k2 res. cbn. rewrite lookup_insert.
      case_decide; [done|apply Ht].
    + by exists front, v, back.
  - destruct (tasks s !! tid) as [[k2 [v2|]|k2 [v2|]]|] eqn:E; try done;
      intros [= <- <-]; (split; [|by exists front, v, back]);
      intros tid' k3 res; cbn; rewrite lookup_insert;
      (case_decide; [|apply Ht]).
    + intros [= <- <-]. eapply Ht, E.
    + done.
  - destruct (tasks s !! tid) as [[k2 [v2|]|k2 [v2|]]|] eqn:E; try done.
    + rewrite get_history_resume_eq by done. intros [= <- <-]. split.
      { intros tid' k3 res. cbn. rewrite lookup_delete.
        case_decide; [done|apply Ht]. }
      cbn [history_cache set_cache set_tasks].
      assert (k2 ∈ A) as Hk2 by (eapply Ht, E).
      destruct (decide (k2 ∈ Pylru.keys (history_cache s))) as [Hk|Hk].
      * destruct (wf_setitem_hit cache_size _ k2 v2 Hwf Hk) as [_ ->].
        rewrite Hi. by apply kept_to_front.
      * pose proof (wf_length cache_size _ Hwf) as Hle.
        destruct (decide (length (Pylru.items (history_cache s)) < cache_size)%nat)
          as [Hlt|Hge].
        -- destruct (wf_setitem_room cache_size _ k2 v2 Hwf Hk Hlt) as [_ ->].
           rewrite Hi. exists ((k2, v2) :: front), v, back. split; [done|].
           intros e [->|He]%elem_of_cons; auto.
        -- destruct (wf_setitem_full cache_size _ k2 v2 Hwf Hk) as [_ ->];
             [lia|unfold cache_size; lia|].
           pose proof (Pylru.wf_keys _ _ Hwf) as Hnd. unfold Pylru.keys in Hnd, Hk.
           rewrite Hi in Hnd, Hk, Hle, Hge |- *.
           destruct (kept_install_full A k k2 v2 v front back Hnd Hk) as [back2 ->];
             [lia|done|done|done|].
           exists ((k2, v2) :: front), v, back2. split; [done|].
           intros e [->|He]%elem_of_cons; auto.
    + intros [= <- <-]. split; [|by exists front, v, back].
      intros tid' k3 res. cbn. rewrite lookup_delete.
      case_decide; [done|apply Ht].
  - intros [= <- <-]. split; [done|by exists front, v, back].
  - intros [= <- <-]. split; [done|by exists front, v, back].
  - intros [= <- <-]. split; [done|by exists front, v, back].
  - intros [= <- <-]. split; [done|by exists front, v, back].
Qed.

Lemma run_kept (A : gset hashX) (k : hashX) tr : ∀ s g s' g' rs,
  Pylru.wf cache_size (history_cache s) → kept A k s →
  requested tr ⊆ A → untouched k tr →
  (size (A ∖ {[k]}) < cache_size)%nat →
  run s g tr = Some (s', g', rs) →
  Pylru.wf cache_size (history_cache s') ∧ kept A k s'.
Proof.
  induction tr as [|e tr IH]; intros s g s' g' rs Hwf Hk Hreq Hunt Hsize; cbn [run].
  - by intros [= <- <- <-].
  - destruct (step s e) as [[s1 r]|] eqn:E; [|done].
    destruct (run s1 (track s g e) tr) as [[[s2 g2] rs2]|] eqn:E2; [|done].
    intros [= <- <- <-]. eapply IH; [| | | |done|exact E2].
    + eapply step_wf; eauto.
    + eapply step_kept; [done|done| | |done|exact E].
      * intros k' ->. apply Hreq, elem_of_requested. left.
      * intros h T ->. apply (Hunt h T). left.
    + intros k' Hk'. apply Hreq. apply elem_of_requested in Hk'.
      apply elem_of_requested. by right.
    + intros h T Hin. apply (Hunt h T). by right.
Qed.

(** C2 as stated fails.  No notification is ever delivered; [get_history(0)]
    completes; histories of 256 other keys are requested; the next
    [get_history(0)] finds nothing cached and queues a new job. *)
Lemma evicted_key_is_recomputed :
  let b := BlockProcessor (λ _, [HistRecord 1]) (λ _, []) 10 (λ _ _, inr ([], 0)) in
  let tr := flat_map (λ i, [GetHistory (N.of_nat i); Worker i; Resume i]) (seq 0 257) in
  (∀ h T, Notify h T ∉ tr)
  ∧ ∃ s g rs,
      run (init b 10 1000000) ghost0 tr = Some (s, g, rs)
      ∧ rs !! 2%nat = Some (History [HistRecord 1])
      ∧ seqno g = 0%nat
      ∧ Pylru.contains (history_cache s) 0%N = false
      ∧ ∃ s', step s (GetHistory 0%N) = Some (s', Suspended 257)
              ∧ tasks s' !! 257%nat = Some (HistoryJob 0%N None).
Proof.
  intros b tr. split.
  - intros h T Hin. unfold tr in Hin.
    apply list_elem_of_In, in_flat_map in Hin as (i & _ & Hi).
    cbn in Hi. intuition discriminate.
  - set (r := run (init b 10 1000000) ghost0 tr).
    assert (from_option (λ p, p.2 !! 2%nat) None r = Some (History [HistRecord 1]))
      as H1 by (vm_compute; reflexivity).
    assert (from_option (λ p, seqno p.1.2) 1%nat r = 0%nat)
      as H2 by (vm_compute; reflexivity).
    assert (from_option (λ p, Pylru.contains (history_cache p.1.1) 0%N) true r = false)
      as H3 by (vm_compute; reflexivity).
    assert (from_option (λ p, snd <$> step p.1.1 (GetHistory 0%N)) None r
            = Some (Suspended 257)) as H4 by (vm_compute; reflexivity).
    assert (from_option
              (λ p, step p.1.1 (GetHistory 0%N) ≫= λ q, tasks q.1 !! 257%nat) None r
            = Some (HistoryJob 0%N None)) as H5 by (vm_compute; reflexivity).
    destruct r as [[[s g] rs]|]; [|discriminate H1].
    cbn [from_option fst snd] in H1, H2, H3, H4, H5.
    exists s, g, rs. split; [reflexivity|]. split; [exact H1|].
    split; [exact H2|]. split; [exact H3|].
    destruct (step s (GetHistory 0%N)) as [[s' r']|]; [|discriminate H4].
    cbn in H4, H5. injection H4 as ->. by exists s'.
Qed.

(** C2, amended: after a [get_history(k)] call has completed, and for as long
    as no notification touches [k] and the other keys requested or still being
    computed number fewer than 256, a [get_history(k)] call returns the value
    the cache holds for [k] and queues no job. *)
Theorem cached_history_is_reused (s0 : chain_state) (g0 : ghost) (e : event)
    (k : hashX) (v0 : list hist_record) (s : chain_state) (tr : list event)
    (s' : chain_state) (g' : ghost) (rs : list response) :
  reachable s0 g0 →
  (e = GetHistory k
   ∨ ∃ tid, e = Resume tid ∧ tasks s0 !! tid = Some (HistoryJob k (Some v0))) →
  step s0 e = Some (s, History v0) →
  untouched k tr →
  (size ((requested tr ∪ pending s) ∖ {[k]}) < 256)%nat →
  run s (track s0 g0 e) tr = Some (s', g', rs) →
  ∃ v s'', step s' (GetHistory k) = Some (s'', History v)
           ∧ Pylru.peek (history_cache s') k = Some v
           ∧ tasks s'' = tasks s' ∧ next_task s'' = next_task s'.
Proof.
  intros Hr He Hstep Hunt Hsize Hrun.
  pose proof (reachable_wf s0 g0 Hr) as Hwf0.
  pose proof (step_wf s0 e s _ Hwf0 Hstep) as Hwf.
  assert (∃ es, Pylru.items (history_cache s) = (k, v0) :: es) as [es Hes].
  { destruct He as [->|(tid & -> & Ht)]; cbn [step] in Hstep.
    - destruct (decide (k ∈ Pylru.keys (history_cache s0))) as [Hk|Hk].
      + destruct (get_history_call_hit s0 k Hwf0 Hk) as (v & c' & E & _ & _ & Hi).
        rewrite E in Hstep. injection Hstep as <- <-. eauto.
      + rewrite get_history_call_miss in Hstep by done. discriminate Hstep.
    - rewrite Ht, get_history_resume_eq in Hstep by done.
      injection Hstep as <-. cbn [history_cache set_cache set_tasks].
      apply (wf_setitem cache_size _ k v0 Hwf0). unfold cache_size. lia. }
  destruct (run_kept (requested tr ∪ pending s) k tr s (track s0 g0 e) s' g' rs Hwf)
    as [Hwf' [_ (front & v & back & Hi & _)]];
    [|apply union_subseteq_l|done|done|done|].
  { apply (kept_front _ k v0 s es); [|done].
    intros tid k' res Ht. apply elem_of_union_r, elem_of_pending. eauto. }
  assert (k ∈ Pylru.keys (history_cache s')) as Hk.
  { unfold Pylru.keys. rewrite Hi, fmap_app, fmap_cons, elem_of_app, elem_of_cons.
    right; by left. }
  destruct (get_history_call_hit s' k Hwf' Hk) as (v' & c' & E & Hpeek & _ & _).
  exists v', (set_cache s' c'). cbn [step]. by rewrite E.
Qed.

Lemma cached_history_is_reused_witness :
  let b := BlockProcessor (λ _, [HistRecord 1]) (λ _, []) 10 (λ _ _, inr ([], 0)) in
  let tr := [GetHistory 8%N; Worker 1; Resume 1; Notify 11 {[8%N]}; GetHistory 9%N] in
  ∃ s0 g0 rs0 s s' g' rs,
    run (init b 10 1000000) ghost0 [GetHistory 7%N; Worker 0] = Some (s0, g0, rs0)
    ∧ step s0 (Resume 0) = Some (s, History [HistRecord 1])
    ∧ run s (track s0 g0 (Resume 0)) tr = Some (s', g', rs)
    ∧ ∃ v s'', step s' (GetHistory 7%N) = Some (s'', History v)
               ∧ tasks s'' = tasks s'.
Proof.
  intros b tr.
  destruct (run (init b 10 1000000) ghost0 [GetHistory 7%N; Worker 0])
    as [[[s0 g0] rs0]|] eqn:E0; [|vm_compute in E0; discriminate E0].
  assert (reachable s0 g0) as Hr by (eexists b, _, _, _, rs0; exact E0).
  vm_compute in E0. injection E0 as <- <- <-.
  match type of Hr with reachable ?x ?y => set (s0 := x) in *; set (g0 := y) in * end.
  destruct (step s0 (Resume 0)) as [[s r]|] eqn:E1; [|vm_compute in E1; discriminate E1].
  pose proof E1 as E1'. vm_compute in E1'. injection E1' as <- <-.
  match type of E1 with _ = Some (?x, _) => set (s := x) in * end.
  destruct (run s (track s0 g0 (Resume 0)) tr)
    as [[[s' g'] rs]|] eqn:E2; [|vm_compute in E2; discriminate E2].
  destruct (cached_history_is_reused s0 g0 (Resume 0) 7%N [HistRecord 1] s tr s' g' rs Hr)
    as (v & s'' & Hstep & _ & Htasks & _).
  - right. exists 0%nat. split; reflexivity.
  - exact E1.
  - intros h T Hin. unfold tr in Hin.
    repeat (apply elem_of_cons in Hin as [Heq|Hin]; [try discriminate Heq|]).
    + injection Heq as -> ->. apply (bool_decide_unpack _). vm_compute. reflexivity.
    + by apply elem_of_nil in Hin.
  - apply Nat.ltb_lt. vm_compute. reflexivity.
  - exact E2.
  - exists s0, g0, [Suspended 0; Done], s, s', g', rs.
    split; [reflexivity|]. split; [exact E1|]. split; [exact E2|].
    exists v, s''. split; assumption.
Defined.

(** ** The eviction scenario of the specification

    With two nodes: after installing keys 1, 2 and then 3, key 1 is gone and
    2 and 3 remain; had key 1 been read before 3 arrived, 2 would have gone. *)
Example lru_capacity_two :
  let c2 := Pylru.setitem (Pylru.setitem (Pylru.new (K:=N) (V:=nat) 2) 1%N 10%nat)
              2%N 20%nat in
  Pylru.iter (Pylru.setitem c2 3%N 30%nat) = [3%N; 2%N]
  ∧ (snd <$> Pylru.getitem c2 1%N)
    ≫= (λ c, Some (Pylru.iter (Pylru.setitem c 3%N 30%nat))) = Some [3%N; 1%N].
Proof. split; reflexivity. Qed.

(** * Further properties of the facade *)

(** Closed goals about concrete keys, by evaluation. *)
Ltac by_evaluation := apply (bool_decide_unpack _); vm_compute; reflexivity.
Ltac each_key H :=
  repeat (apply elem_of_cons in H as [->|H]; [by_evaluation|]);
  by apply elem_of_nil in H.

(** ** Lookups and membership *)
Lemma alookup_elem (es : list (hashX * list hist_record)) k v :
  NoDup es.*1 → (k, v) ∈ es → Pylru.alookup k es = Some v.
Proof.
  induction es as [|[k' v'] es IH]; intros Hnd Hin.
  - by apply elem_of_nil in Hin.
  - rewrite fmap_cons in Hnd. apply NoDup_cons in Hnd as [Hk Hnd].
    apply elem_of_cons in Hin as [Heq|Hin]; cbn [Pylru.alookup].
    + injection Heq as -> ->. by rewrite decide_True.
    + rewrite decide_False; [auto|].
      intros ->. apply Hk. by apply (list_elem_of_fmap_2 fst _ _ Hin).
Qed.

Lemma peek_elem size (c : hcache) k v :
  Pylru.wf size c → Pylru.peek c k = Some v ↔ (k, v) ∈ Pylru.items c.
Proof.
  intros Hwf. rewrite (wf_peek size c k Hwf). split.
  - apply alookup_Some.
  - apply alookup_elem, Hwf.
Qed.

Lemma filter_all {A} (P : A → Prop) `{!∀ x, Decision (P x)} (l : list A) :
  (∀ x, x ∈ l → P x) → filter P l = l.
Proof.
  induction l as [|a l IH]; intros Hl; [done|].
  rewrite filter_cons_True by (apply Hl; left).
  rewrite IH; [done|]. intros x Hx. apply Hl. by right.
Qed.

Lemma filter_none {A} (P : A → Prop) `{!∀ x, Decision (P x)} (l : list A) :
  (∀ x, x ∈ l → ¬ P x) → filter P l = [].
Proof.
  induction l as [|a l IH]; intros Hl; [done|].
  rewrite filter_cons_False by (apply Hl; left).
  apply IH. intros x Hx. apply Hl. by right.
Qed.

Lemma wf_items_eq size (c c' : hcache) :
  Pylru.wf size c → Pylru.wf size c' → Pylru.items c = Pylru.items c' → c = c'.
Proof.
  intros Hwf Hwf' Hi.
  rewrite (wf_eq size c Hwf), (wf_eq size c' Hwf'). by rewrite Hi.
Qed.

(** X1: no step of the facade raises [KeyError].  [_notify] deletes only keys
    it has just read from the cache, and [get_history] reads [hc[hashX]] only
    when the key is present or has just been stored. *)
Theorem no_key_error (b : block_processor) (dh ms : Z) (tr : list event)
    (s : chain_state) (g : ghost) (rs : list response) :
  run (init b dh ms) ghost0 tr = Some (s, g, rs) →
  ∀ k, Raised (KeyError k) ∉ rs.
Proof.
  assert (∀ s e s' r k, Pylru.wf cache_size (history_cache s) →
            step s e = Some (s', r) → r ≠ Raised (KeyError k)) as Hstep.
  { intros s0 e s' r k Hwf.
    destruct e as [h T|k'|k'|tid|tid|h| | |b' dh']; cbn [step].
    - destruct (notify_spec cache_size _ h T Hwf) as (c' & -> & _ & _).
      by intros [= <- <-].
    - destruct (decide (k' ∈ Pylru.keys (history_cache s0))) as [Hk|Hk].
      + destruct (get_history_call_hit s0 k' Hwf Hk) as (v & c' & -> & _).
        by intros [= <- <-].
      + rewrite get_history_call_miss by done. by intros [= <- <-].
    - by intros [= <- <-].
    - destruct (tasks s0 !! tid) as [[k2 [v2|]|k2 [v2|]]|]; by intros [= <- <-].
    - destruct (tasks s0 !! tid) as [[k2 [v2|]|k2 [v2|]]|]; try done.
      + rewrite get_history_resume_eq by done. by intros [= <- <-].
      + by intros [= <- <-].
    - intros [= <- <-]. unfold raw_header.
      destruct (bp_read_headers (bp s0) h 1) as [se|[hd n]]; [done|].
      by destruct (decide (n ≠ 1)).
    - by intros [= <- <-].
    - by intros [= <- <-].
    - by intros [= <- <-]. }
  assert (∀ tr s g s' g' rs k, Pylru.wf cache_size (history_cache s) →
            run s g tr = Some (s', g', rs) → Raised (KeyError k) ∉ rs) as Hrun.
  { clear -Hstep. induction tr as [|e tr IH]; intros s g s' g' rs k Hwf; cbn [run].
    - intros [= <- <- <-]. apply not_elem_of_nil.
    - destruct (step s e) as [[s1 r]|] eqn:E; [|done].
      destruct (run s1 (track s g e) tr) as [[[s2 g2] rs2]|] eqn:E2; [|done].
      intros [= <- <- <-]. apply not_elem_of_cons. split.
      + intros Heq. by apply (Hstep s e s1 r k Hwf E).
      + eapply IH; [|exact E2]. eapply step_wf; eauto. }
  intros Hr k. eapply Hrun; [|exact Hr]. apply wf_new.
Qed.

Lemma no_key_error_witness :
  let b := BlockProcessor (λ _, [HistRecord 1]) (λ _, []) 10 (λ _ _, inr ([], 0)) in
  ∃ s g rs,
    run (init b 10 1000000) ghost0
      [GetHistory 7%N; Notify 11 {[7%N; 8%N]}; Worker 0; Resume 0;
       Notify 12 {[7%N]}; Notify 12 {[7%N]}; GetHistory 7%N] = Some (s, g, rs)
    ∧ Raised (KeyError 7%N) ∉ rs.
Proof.
  intros b.
  destruct (run (init b 10 1000000) ghost0
      [GetHistory 7%N; Notify 11 {[7%N; 8%N]}; Worker 0; Resume 0;
       Notify 12 {[7%N]}; Notify 12 {[7%N]}; GetHistory 7%N])
    as [[[s g] rs]|] eqn:E; [|vm_compute in E; discriminate E].
  exists s, g, rs. split; [reflexivity|].
  exact (no_key_error b 10 1000000 _ s g rs E 7%N).
Defined.

(** ** More on the notification callback *)

(** X2: the loop of [_notify] runs over a set, whose order of iteration is
    not fixed.  Whatever order the keys come in, the loop ends without error
    in the same cache. *)
Theorem notify_order_irrelevant (c : hcache) (height : Z) (touched : gset hashX)
    (ks : list hashX) :
  Pylru.wf cache_size c → ks ≡ₚ elements (touched_cached c touched) →
  del_each ks c = notify c height touched
  ∧ (del_each ks c).2 = None.
Proof.
  intros Hwf Hp. unfold notify.
  assert (del_each ks c = del_each (elements (touched_cached c touched)) c) as ->.
  { apply (del_each_permutation cache_size (elements (touched_cached c touched)));
      [done|apply NoDup_elements| |done].
    intros k. unfold touched_cached.
    rewrite elem_of_elements, elem_of_intersection, elem_of_list_to_set,
      (wf_iter cache_size c Hwf). tauto. }
  split; [done|].
  destruct (notify_spec cache_size c height touched Hwf) as (c' & E & _).
  unfold notify in E. by rewrite E.
Qed.

Lemma notify_order_irrelevant_witness :
  let c := Pylru.setitem (Pylru.setitem (Pylru.new cache_size) 1%N [HistRecord 1])
             2%N [HistRecord 2; HistRecord 3] in
  del_each [1%N; 2%N] c = del_each [2%N; 1%N] c.
Proof.
  intros c.
  assert ([1%N; 2%N] ≡ₚ elements (touched_cached c {[1%N; 2%N; 9%N]})) as H12.
  { vm_compute. first [reflexivity | apply perm_swap]. }
  assert ([2%N; 1%N] ≡ₚ elements (touched_cached c {[1%N; 2%N; 9%N]})) as H21.
  { vm_compute. first [reflexivity | apply perm_swap]. }
  rewrite (proj1 (notify_order_irrelevant c 0 _ _ wf_two_entries H12)).
  by rewrite (proj1 (notify_order_irrelevant c 0 _ _ wf_two_entries H21)).
Defined.

(** X3: two notifications in a row have the effect of one notification with
    the union of their touched sets, and their order does not matter. *)
Theorem notify_twice_is_union (c : hcache) (h1 h2 h3 : Z) (t1 t2 : gset hashX) :
  Pylru.wf cache_size c →
  ∃ c1 c2 c12,
    notify c h1 t1 = (c1, None) ∧ notify c1 h2 t2 = (c12, None)
    ∧ notify c h2 t2 = (c2, None) ∧ notify c2 h1 t1 = (c12, None)
    ∧ notify c h3 (t1 ∪ t2) = (c12, None).
Proof.
  intros Hwf.
  destruct (notify_spec cache_size c h1 t1 Hwf) as (c1 & E1 & Hwf1 & Hi1).
  destruct (notify_spec cache_size c1 h2 t2 Hwf1) as (c12 & E12 & Hwf12 & Hi12).
  destruct (notify_spec cache_size c h2 t2 Hwf) as (c2 & E2 & Hwf2 & Hi2).
  destruct (notify_spec cache_size c2 h1 t1 Hwf2) as (c21 & E21 & Hwf21 & Hi21).
  destruct (notify_spec cache_size c h3 (t1 ∪ t2) Hwf) as (cu & Eu & Hwfu & Hiu).
  exists c1, c2, c12. split; [done|]. split; [done|]. split; [done|].
  assert (Pylru.items c12
          = filter (λ e, e.1 ∉ t1 ∪ t2) (Pylru.items c)) as H12.
  { rewrite Hi12, Hi1, list_filter_filter. apply list_filter_iff.
    intros e. rewrite not_elem_of_union. tauto. }
  split.
  - rewrite E21. f_equal. apply (wf_items_eq cache_size); [done|done|].
    rewrite Hi21, Hi2, H12, list_filter_filter. apply list_filter_iff.
    intros e. rewrite not_elem_of_union. tauto.
  - rewrite Eu. f_equal. apply (wf_items_eq cache_size); [done|done|].
    by rewrite Hiu, H12.
Qed.

Lemma notify_twice_is_union_witness :
  let c := Pylru.setitem (Pylru.setitem (Pylru.new cache_size) 1%N [HistRecord 1])
             2%N [HistRecord 2; HistRecord 3] in
  ∃ c1 c12, notify c 5 {[1%N]} = (c1, None) ∧ notify c1 6 {[2%N; 3%N]} = (c12, None)
            ∧ notify c 7 ({[1%N]} ∪ {[2%N; 3%N]}) = (c12, None).
Proof.
  intros c.
  destruct (notify_twice_is_union c 5 6 7 {[1%N]} {[2%N; 3%N]} wf_two_entries)
    as (c1 & c2 & c12 & E1 & E12 & _ & _ & Eu).
  by exists c1, c12.
Defined.

(** X4: a notification none of whose keys is cached (the empty set among
    them) leaves the cache exactly as it is, order included; a notification
    covering every cached key leaves the cache as it was created, with 256
    empty nodes. *)
Theorem notify_edge_cases (c : hcache) (height : Z) (touched : gset hashX) :
  Pylru.wf cache_size c →
  ((∀ k, k ∈ Pylru.keys c → k ∉ touched) → notify c height touched = (c, None))
  ∧ notify c height ∅ = (c, None)
  ∧ ((∀ k, k ∈ Pylru.keys c → k ∈ touched) →
     notify c height touched = (Pylru.new cache_size, None)).
Proof.
  intros Hwf.
  assert (∀ T, (∀ k, k ∈ Pylru.keys c → k ∉ T) → notify c height T = (c, None))
    as Hnone.
  { intros T HT.
    destruct (notify_spec cache_size c height T Hwf) as (c' & -> & Hwf' & Hi).
    f_equal. apply (wf_items_eq cache_size); [done|done|].
    rewrite Hi. apply filter_all. intros e He. apply HT.
    by apply list_elem_of_fmap_2. }
  split; [apply Hnone|]. split; [apply Hnone; intros k _; apply not_elem_of_empty|].
  intros HT.
  destruct (notify_spec cache_size c height touched Hwf) as (c' & -> & Hwf' & Hi).
  f_equal. apply (wf_items_eq cache_size); [done|apply wf_new|].
  rewrite Hi, items_new. apply filter_none. intros e He Hne. apply Hne, HT.
  by apply list_elem_of_fmap_2.
Qed.

Lemma notify_edge_cases_witness :
  let c := Pylru.setitem (Pylru.setitem (Pylru.new cache_size) 1%N [HistRecord 1])
             2%N [HistRecord 2; HistRecord 3] in
  notify c 5 {[3%N; 4%N]} = (c, None)
  ∧ notify c 5 {[1%N; 2%N; 3%N]} = (Pylru.new cache_size, None).
Proof.
  intros c.
  destruct (notify_edge_cases c 5 {[3%N; 4%N]} wf_two_entries) as (H1 & _ & _).
  destruct (notify_edge_cases c 5 {[1%N; 2%N; 3%N]} wf_two_entries) as (_ & _ & H2).
  split.
  - apply H1. intros k Hk. change (Pylru.keys c) with [2%N; 1%N] in Hk. each_key Hk.
  - apply H2. intros k Hk. change (Pylru.keys c) with [2%N; 1%N] in Hk. each_key Hk.
Defined.

(** ** The cache against an unchanged store *)
Lemma step_coherent b ms s e s' r :
  Pylru.wf cache_size (history_cache s) → coherent b ms s →
  (∀ b' dh', e ≠ Advance b' dh') →
  step s e = Some (s', r) → coherent b ms s'.
Proof.
  intros Hwf (Hb & Hms & Hc & Ht) Hne.
  destruct e as [h T|k|k|tid|tid|h| | |b' dh']; cbn [step].
  - destruct (notify_spec cache_size _ h T Hwf) as (c' & -> & Hwf' & Hi).
    intros [= <- <-]. split; [done|]. split; [done|]. split; [|done].
    intros k v. cbn. rewrite Hi, list_elem_of_filter. intros [_ ?]. eauto.
  - destruct (decide (k ∈ Pylru.keys (history_cache s))) as [Hk|Hk].
    + destruct (get_history_call_hit s k Hwf Hk) as (v & c' & -> & Hv & Hwf' & Hi).
      apply (peek_elem cache_size _ k v Hwf) in Hv.
      intros [= <- <-]. split; [done|]. split; [done|]. split; [|done].
      intros k' v'. cbn. rewrite Hi, elem_of_cons. unfold Pylru.aremove.
      rewrite list_elem_of_filter. intros [[= -> ->]|[_ ?]]; eauto.
    + rewrite get_history_call_miss by done. intros [= <- <-].
      split; [done|]. split; [done|]. split; [done|].
      intros tid k' v'. cbn. rewrite lookup_insert.
      case_decide; [done|]. apply Ht.
  - intros [= <- <-]. split; [done|]. split; [done|]. split; [done|].
    intros tid k' v'. cbn. rewrite lookup_insert.
    case_decide; [done|]. apply Ht.
  - destruct (tasks s !! tid) as [[k [v|]|k [v|]]|] eqn:E; try done.
    + intros [= <- <-]. split; [done|]. split; [done|]. split; [done|].
      intros tid' k' v'. cbn. rewrite lookup_insert.
      case_decide; [|apply Ht]. intros [= <- <-].
      unfold history_job. by rewrite Hb, Hms.
    + intros [= <- <-]. split; [done|]. split; [done|]. split; [done|].
      intros tid' k' v'. cbn. rewrite lookup_insert.
      case_decide; [done|apply Ht].
  - destruct (tasks s !! tid) as [[k [v|]|k [v|]]|] eqn:E; try done.
    + rewrite get_history_resume_eq by done. intros [= <- <-].
      pose proof (Ht tid k v E) as Hv.
      split; [done|]. split; [done|]. split.
      * intros k' v' Hin. cbn in Hin.
        apply (setitem_items_incl cache_size) in Hin as [[= -> ->]|Hin];
          [done|eauto|done|unfold cache_size; lia].
      * intros tid' k' v'. cbn. rewrite lookup_delete.
        case_decide; [done|apply Ht].
    + intros [= <- <-]. split; [done|]. split; [done|]. split; [done|].
      intros tid' k' v'. cbn. rewrite lookup_delete.
      case_decide; [done|apply Ht].
  - by intros [= <- <-].
  - by intros [= <- <-].
  - by intros [= <- <-].
  - by destruct (Hne b' dh').
Qed.

Lemma run_coherent b ms tr : ∀ s g s' g' rs,
  Pylru.wf cache_size (history_cache s) → coherent b ms s → static tr →
  run s g tr = Some (s', g', rs) →
  Pylru.wf cache_size (history_cache s') ∧ coherent b ms s'.
Proof.
  induction tr as [|e tr IH]; intros s g s' g' rs Hwf Hc Hst; cbn [run].
  - by intros [= <- <- <-].
  - destruct (step s e) as [[s1 r]|] eqn:E; [|done].
    destruct (run s1 (track s g e) tr) as [[[s2 g2] rs2]|] eqn:E2; [|done].
    intros [= <- <- <-]. eapply IH; [| | |exact E2].
    + eapply step_wf; eauto.
    + eapply step_coherent; [done|done| |exact E].
      intros b' dh' ->. apply (Hst b' dh'). left.
    + intros b' dh' Hin. apply (Hst b' dh'). by right.
Qed.

(** X5: as long as the store and [max_send] do not change, the cache is
    transparent.  In every state reached, the history cached for a key, the
    history a [get_history] call returns at once, and the history a resumed
    call returns are all what the job computes from the store now: the first
    [max_send // 97] records of the key. *)
Theorem static_store_coherent (b : block_processor) (dh ms : Z) (tr : list event)
    (s : chain_state) (g : ghost) (rs : list response) :
  run (init b dh ms) ghost0 tr = Some (s, g, rs) → static tr →
  (∀ k, history_job s k = take (Z.to_nat (ms / 97)) (bp_history b k))
  ∧ (∀ k v, Pylru.peek (history_cache s) k = Some v → v = history_job s k)
  ∧ (∀ k s' v, step s (GetHistory k) = Some (s', History v) → v = history_job s k)
  ∧ (∀ tid k res s' r, tasks s !! tid = Some (HistoryJob k res) →
       step s (Resume tid) = Some (s', r) → r = History (history_job s k)).
Proof.
  intros Hrun Hst.
  destruct (run_coherent b ms tr (init b dh ms) ghost0 s g rs)
    as [Hwf (Hb & Hms & Hc & Ht)]; [apply wf_new| |done|done|].
  { split; [done|]. split; [done|]. split.
    - intros k v. cbn [init history_cache]. rewrite items_new.
      intros Hin. by apply elem_of_nil in Hin.
    - intros tid k v. cbn. by rewrite lookup_empty. }
  assert (∀ k, history_job s k = bp_get_history b k (Some (ms / 97))) as Hjob.
  { intros k. unfold history_job. by rewrite Hb, Hms. }
  split; [intros k; by rewrite Hjob|]. split; [|split].
  - intros k v Hv. rewrite Hjob. apply Hc.
    by apply (peek_elem cache_size _ k v Hwf).
  - intros k s' v. cbn [step].
    destruct (decide (k ∈ Pylru.keys (history_cache s))) as [Hk|Hk].
    + destruct (get_history_call_hit s k Hwf Hk) as (v' & c' & -> & Hv & _).
      intros [= <- <-]. rewrite Hjob. apply Hc.
      by apply (peek_elem cache_size _ k v' Hwf).
    + rewrite get_history_call_miss by done. by intros [= <- ?].
  - intros tid k res s' r Htid. cbn [step]. rewrite Htid.
    destruct res as [v|]; [|done].
    rewrite get_history_resume_eq by done. intros [= <- <-].
    f_equal. rewrite Hjob. by eapply Ht.
Qed.

Lemma static_store_coherent_witness :
  let b := BlockProcessor (λ k, HistRecord <$> [k; 2; 3]%N) (λ _, []) 10
             (λ _ _, inr ([], 0)) in
  ∃ s g rs s',
    run (init b 10 200) ghost0
      [GetHistory 7%N; Worker 0; Resume 0; Notify 11 {[8%N]}; GetUtxos 7%N]
    = Some (s, g, rs)
    ∧ step s (GetHistory 7%N) = Some (s', History [HistRecord 7; HistRecord 2]).
Proof.
  intros b.
  destruct (run (init b 10 200) ghost0
      [GetHistory 7%N; Worker 0; Resume 0; Notify 11 {[8%N]}; GetUtxos 7%N])
    as [[[s g] rs]|] eqn:E; [|vm_compute in E; discriminate E].
  destruct (static_store_coherent b 10 200 _ s g rs E) as (Hjob & _ & Hhit & _).
  { intros b' dh' Hin.
    repeat (apply elem_of_cons in Hin as [Heq|Hin]; [discriminate Heq|]).
    by apply elem_of_nil in Hin. }
  destruct (step s (GetHistory 7%N)) as [[s' r]|] eqn:E1; [|discriminate E1].
  assert (r = History [HistRecord 7; HistRecord 2]) as ->.
  { pose proof E as E'. vm_compute in E'. injection E' as <- _ _.
    vm_compute in E1. by injection E1 as _ <-. }
  exists s, g, rs, s'. split; [reflexivity|].
  by rewrite (Hhit 7%N s' _ E1), Hjob.
Defined.

(** ** What a step does to the cached entries *)
Lemma aremove_lookup_ne (es : list (hashX * list hist_record)) k k' :
  k ≠ k' → Pylru.alookup k' (Pylru.aremove k es) = Pylru.alookup k' es.
Proof.
  intros Hne. unfold Pylru.aremove. induction es as [|[k0 v0] es IH]; [done|].
  rewrite filter_cons. destruct (decide ((k0, v0).1 ≠ k)) as [H0|H0]; cbn in H0.
  - cbn [Pylru.alookup]. by rewrite IH.
  - apply dec_stable in H0. subst k0. cbn [Pylru.alookup].
    by rewrite decide_False.
Qed.

Lemma aremove_perm (es : list (hashX * list hist_record)) k v :
  NoDup es.*1 → Pylru.alookup k es = Some v → (k, v) :: Pylru.aremove k es ≡ₚ es.
Proof.
  induction es as [|[k' v'] es IH]; [done|].
  rewrite fmap_cons, NoDup_cons. cbn [fst Pylru.alookup]. intros [Hk Hnd].
  unfold Pylru.aremove. rewrite filter_cons. cbn [fst]. fold (Pylru.aremove k es).
  destruct (decide (k' = k)) as [->|Hne].
  - intros [= ->]. rewrite decide_False by tauto. by rewrite aremove_absent.
  - intros Hv. rewrite decide_True by done.
    rewrite perm_swap. by rewrite (IH Hnd Hv).
Qed.

(** X6: a cache hit changes the order of the cache and nothing else: the
    value returned is the one cached, every key keeps its value, the entries
    are the same up to order, and no job is queued. *)
Theorem hit_changes_order_only (s : chain_state) (g : ghost) (k : hashX) :
  reachable s g → k ∈ Pylru.keys (history_cache s) →
  ∃ s' v,
    step s (GetHistory k) = Some (s', History v)
    ∧ Pylru.peek (history_cache s) k = Some v
    ∧ (∀ k', Pylru.peek (history_cache s') k' = Pylru.peek (history_cache s) k')
    ∧ Pylru.items (history_cache s') ≡ₚ Pylru.items (history_cache s)
    ∧ tasks s' = tasks s ∧ next_task s' = next_task s.
Proof.
  intros Hr Hk. pose proof (reachable_wf s g Hr) as Hwf.
  destruct (get_history_call_hit s k Hwf Hk) as (v & c' & E & Hv & Hwf' & Hi).
  exists (set_cache s c'), v. cbn [step]. rewrite E.
  split; [done|]. split; [done|]. cbn [history_cache set_cache tasks next_task].
  pose proof Hv as Hv'. rewrite (wf_peek cache_size _ k Hwf) in Hv'.
  split; [|split; [|done]].
  - intros k'. rewrite (wf_peek cache_size c' k' Hwf'),
      (wf_peek cache_size _ k' Hwf), Hi. cbn [Pylru.alookup].
    destruct (decide (k = k')) as [<-|Hne]; [done|].
    by apply aremove_lookup_ne.
  - rewrite Hi. apply aremove_perm; [apply Hwf|done].
Qed.

Lemma hit_changes_order_only_witness :
  let b := BlockProcessor (λ k, [HistRecord k]) (λ _, []) 10 (λ _ _, inr ([], 0)) in
  ∃ s g rs s',
    run (init b 10 1000000) ghost0
      [GetHistory 1%N; GetHistory 2%N; Worker 0; Worker 1; Resume 0; Resume 1]
    = Some (s, g, rs)
    ∧ step s (GetHistory 1%N) = Some (s', History [HistRecord 1])
    ∧ Pylru.peek (history_cache s') 2%N = Some [HistRecord 2].
Proof.
  intros b.
  set (r := run (init b 10 1000000) ghost0
      [GetHistory 1%N; GetHistory 2%N; Worker 0; Worker 1; Resume 0; Resume 1]).
  assert (from_option (λ p, bool_decide (1%N ∈ Pylru.keys (history_cache p.1.1)))
            false r = true) as Hk by (vm_compute; reflexivity).
  assert (from_option (λ p, Pylru.peek (history_cache p.1.1) 1%N) None r
          = Some [HistRecord 1]) as H1 by (vm_compute; reflexivity).
  assert (from_option (λ p, Pylru.peek (history_cache p.1.1) 2%N) None r
          = Some [HistRecord 2]) as H2 by (vm_compute; reflexivity).
  destruct r as [[[s g] rs]|] eqn:E; [|discriminate Hk]. subst r.
  cbn [from_option fst] in Hk, H1, H2. apply bool_decide_eq_true in Hk.
  assert (reachable s g) as Hr by (eexists b, 10, 1000000, _, rs; exact E).
  destruct (hit_changes_order_only s g 1%N Hr Hk) as (s' & v & Hs & Hv & Hall & _).
  exists s, g, rs, s'. split; [reflexivity|].
  rewrite H1 in Hv. injection Hv as <-. split; [exact Hs|].
  by rewrite Hall.
Defined.

(** X7: a history is in the cache under a key only if it was there before the
    step or the step is the resumption of a job for that very key with that
    very result.  No other operation writes the cache, and no result is ever
    stored under another key. *)
Theorem entries_enter_only_by_install (s : chain_state) (g : ghost) (e : event)
    (s' : chain_state) (r : response) (k : hashX) (v : list hist_record) :
  reachable s g → step s e = Some (s', r) →
  Pylru.peek (history_cache s') k = Some v →
  Pylru.peek (history_cache s) k = Some v
  ∨ ∃ tid, e = Resume tid ∧ tasks s !! tid = Some (HistoryJob k (Some v)).
Proof.
  intros Hr Hstep. pose proof (reachable_wf s g Hr) as Hwf.
  pose proof (step_wf s e s' r Hwf Hstep) as Hwf'.
  rewrite (peek_elem cache_size _ k v Hwf'), (peek_elem cache_size _ k v Hwf).
  revert Hstep.
  destruct e as [h T|k'|k'|tid|tid|h| | |b dh]; cbn [step].
  - destruct (notify_spec cache_size _ h T Hwf) as (c' & -> & _ & Hi).
    intros [= <- <-]. cbn. rewrite Hi, list_elem_of_filter. tauto.
  - destruct (decide (k' ∈ Pylru.keys (history_cache s))) as [Hk|Hk].
    + destruct (get_history_call_hit s k' Hwf Hk) as (v' & c' & -> & Hv & _ & Hi).
      apply (peek_elem cache_size _ k' v' Hwf) in Hv.
      intros [= <- <-]. cbn. rewrite Hi, elem_of_cons. unfold Pylru.aremove.
      rewrite list_elem_of_filter. intros [[= -> ->]|[_ ?]]; by left.
    + rewrite get_history_call_miss by done. intros [= <- <-]. by left.
  - intros [= <- <-]. by left.
  - destruct (tasks s !! tid) as [[k2 [v2|]|k2 [v2|]]|]; try done;
      intros [= <- <-]; by left.
  - destruct (tasks s !! tid) as [[k2 [v2|]|k2 [v2|]]|] eqn:E; try done.
    + rewrite get_history_resume_eq by done. intros [= <- <-]. cbn. intros Hin.
      apply (setitem_items_incl cache_size) in Hin as [[= -> ->]|Hin];
        [right; eauto|by left|done|unfold cache_size; lia].
    + intros [= <- <-]. by left.
  - intros [= <- <-]. by left.
  - intros [= <- <-]. by left.
  - intros [= <- <-]. by left.
  - intros [= <- <-]. by left.
Qed.

Lemma entries_enter_only_by_install_witness :
  let b := BlockProcessor (λ k, [HistRecord k]) (λ _, []) 10 (λ _ _, inr ([], 0)) in
  ∃ s g rs s',
    run (init b 10 1000000) ghost0 [GetHistory 1%N; Worker 0] = Some (s, g, rs)
    ∧ step s (Resume 0) = Some (s', History [HistRecord 1])
    ∧ tasks s !! 0%nat = Some (HistoryJob 1%N (Some [HistRecord 1])).
Proof.
  intros b.
  destruct (run (init b 10 1000000) ghost0 [GetHistory 1%N; Worker 0])
    as [[[s g] rs]|] eqn:E; [|vm_compute in E; discriminate E].
  assert (reachable s g) as Hr by (eexists b, 10, 1000000, _, rs; exact E).
  destruct (step s (Resume 0)) as [[s' r]|] eqn:E1;
    [|vm_compute in E; injection E as <- _ _; vm_compute in E1; discriminate E1].
  assert (Pylru.peek (history_cache s') 1%N = Some [HistRecord 1]
          ∧ Pylru.peek (history_cache s) 1%N = None
          ∧ r = History [HistRecord 1]) as (Hp' & Hp & ->).
  { pose proof E as E'. vm_compute in E'. injection E' as <- _ _.
    vm_compute in E1. injection E1 as <- <-. repeat split. }
  destruct (entries_enter_only_by_install s g (Resume 0) s' _ 1%N _ Hr E1 Hp')
    as [Hold|(tid & [= <-] & Ht)].
  - rewrite Hp in Hold. discriminate Hold.
  - by exists s, g, rs, s'.
Defined.

(** X8: a cached key leaves the cache in two ways only: a notification whose
    touched set contains it, or the installation of a key that was not cached
    into a cache of 256 entries, and then it is the last key of the order. *)
Theorem entries_leave_only_by_notify_or_eviction (s : chain_state) (g : ghost)
    (e : event) (s' : chain_state) (r : response) (k : hashX) :
  reachable s g → step s e = Some (s', r) →
  k ∈ Pylru.keys (history_cache s) → k ∉ Pylru.keys (history_cache s') →
  (∃ h T, e = Notify h T ∧ k ∈ T)
  ∨ (∃ tid k' v', e = Resume tid
       ∧ tasks s !! tid = Some (HistoryJob k' (Some v'))
       ∧ (k' ∉ Pylru.keys (history_cache s))
       ∧ Pylru.len (history_cache s) = 256%nat
       ∧ last (Pylru.keys (history_cache s)) = Some k).
Proof.
  intros Hr Hstep Hin Hout. pose proof (reachable_wf s g Hr) as Hwf.
  revert Hstep.
  destruct e as [h T|k'|k'|tid|tid|h| | |b dh]; cbn [step].
  - destruct (notify_spec cache_size _ h T Hwf) as (c' & -> & _ & Hi).
    intros [= <- <-]. left. exists h, T. split; [done|].
    destruct (decide (k ∈ T)) as [|Hk]; [done|]. exfalso. apply Hout.
    cbn. unfold Pylru.keys in *. rewrite Hi.
    apply list_elem_of_fmap in Hin as (x & -> & Hx).
    apply list_elem_of_fmap_2, list_elem_of_filter. by split.
  - destruct (decide (k' ∈ Pylru.keys (history_cache s))) as [Hk|Hk].
    + destruct (get_history_call_hit s k' Hwf Hk) as (v' & c' & -> & _ & _ & Hi).
      intros [= <- <-]. exfalso. apply Hout. cbn. unfold Pylru.keys at 1.
      rewrite Hi, fmap_cons, aremove_keys, elem_of_cons, list_elem_of_filter.
      destruct (decide (k = k')); [by left|by right].
    + rewrite get_history_call_miss by done. by intros [= <- <-].
  - by intros [= <- <-].
  - destruct (tasks s !! tid) as [[k2 [v2|]|k2 [v2|]]|]; try done;
      by intros [= <- <-].
  - destruct (tasks s !! tid) as [[k2 [v2|]|k2 [v2|]]|] eqn:E; try done;
      [|by intros [= <- <-]].
    rewrite get_history_resume_eq by done. intros [= <- <-].
    cbn [history_cache set_cache set_tasks] in Hout.
    destruct (setitem_keys cache_size (history_cache s) k2 v2 Hwf)
      as (Hhit & Hroom & Hfull); [unfold cache_size; lia|].
    assert (Pylru.len (history_cache s) = length (Pylru.keys (history_cache s)))
      as Hlen.
    { rewrite (wf_len cache_size _ Hwf). unfold Pylru.keys. by rewrite length_fmap. }
    destruct (decide (k2 ∈ Pylru.keys (history_cache s))) as [Hk|Hk].
    { exfalso. apply Hout. rewrite (Hhit Hk), elem_of_cons, list_elem_of_filter.
      destruct (decide (k = k2)); [by left|by right]. }
    destruct (decide (length (Pylru.keys (history_cache s)) < cache_size)%nat)
      as [Hlt|Hge].
    { exfalso. apply Hout. rewrite (Hroom Hk Hlt). by right. }
    pose proof (wf_length cache_size _ Hwf) as Hle.
    assert (length (Pylru.keys (history_cache s)) = cache_size) as Hfl.
    { unfold Pylru.keys in *. rewrite length_fmap in *. lia. }
    right. exists tid, k2, v2. split; [done|]. split; [done|]. split; [done|].
    split; [by rewrite Hlen|].
    rewrite (Hfull Hk Hfl) in Hout.
    destruct (Pylru.keys (history_cache s)) as [|x l _] using rev_ind; [done|].
    rewrite removelast_last in Hout. rewrite last_snoc. f_equal.
    apply elem_of_app in Hin as [Hin|Hin%list_elem_of_singleton]; [|done].
    exfalso. apply Hout. by right.
  - by intros [= <- <-].
  - by intros [= <- <-].
  - by intros [= <- <-].
  - by intros [= <- <-].
Qed.

Lemma entries_leave_only_by_notify_or_eviction_witness :
  let b := BlockProcessor (λ k, [HistRecord k]) (λ _, []) 10 (λ _ _, inr ([], 0)) in
  ∃ s g rs s' r,
    run (init b 10 1000000) ghost0 [GetHistory 1%N; Worker 0; Resume 0]
    = Some (s, g, rs)
    ∧ step s (Notify 11 {[1%N; 2%N]}) = Some (s', r)
    ∧ (1%N ∈ Pylru.keys (history_cache s)) ∧ (1%N ∉ Pylru.keys (history_cache s'))
    ∧ ∃ h T, Notify 11 {[1%N; 2%N]} = Notify h T ∧ (1%N ∈ T).
Proof.
  intros b.
  destruct (run (init b 10 1000000) ghost0 [GetHistory 1%N; Worker 0; Resume 0])
    as [[[s g] rs]|] eqn:E; [|vm_compute in E; discriminate E].
  assert (reachable s g) as Hr by (eexists b, 10, 1000000, _, rs; exact E).
  destruct (step s (Notify 11 {[1%N; 2%N]})) as [[s' r]|] eqn:E1;
    [|cbn [step] in E1; destruct (notify _ _ _); discriminate E1].
  assert ((1%N ∈ Pylru.keys (history_cache s))
          ∧ (1%N ∉ Pylru.keys (history_cache s'))) as [Hin Hout].
  { pose proof E as E'. vm_compute in E'. injection E' as <- _ _.
    vm_compute in E1. injection E1 as <- _. split; by_evaluation. }
  destruct (entries_leave_only_by_notify_or_eviction s g _ s' r 1%N Hr E1 Hin Hout)
    as [(h & T & Heq & HT)|(tid & k' & v' & Heq & _)]; [|discriminate Heq].
  exists s, g, rs, s', r. repeat split; try assumption. by exists h, T.
Defined.

(** ** Jobs in flight *)
Lemma step_fresh_ids s e s' r :
  fresh_ids s → step s e = Some (s', r) →
  fresh_ids s' ∧ (next_task s ≤ next_task s')%nat.
Proof.
  intros Hf.
  assert (∀ t, fresh_ids (spawn s t).1
               ∧ (next_task s ≤ next_task (spawn s t).1)%nat) as Hspawn.
  { intros t. split; [|cbn; lia]. intros tid t'. cbn. rewrite lookup_insert.
    case_decide; [intros _; lia|]. intros Ht. specialize (Hf tid t' Ht). lia. }
  destruct e as [h T|k|k|tid|tid|h| | |b dh]; cbn [step].
  - destruct (notify _ _ _) as [c err]. by intros [= <- <-].
  - unfold get_history_call. destruct (Pylru.contains _ k).
    + unfold get_history_return. destruct (Pylru.getitem _ k) as [[v c]|];
        by intros [= <- <-].
    + intros [= <- <-]. apply Hspawn.
  - intros [= <- <-]. apply Hspawn.
  - destruct (tasks s !! tid) as [[k [v|]|k [v|]]|] eqn:E; try done;
      intros [= <- <-]; (split; [|done]); intros tid' t'; cbn;
      rewrite lookup_insert; (case_decide; [subst; intros _; eapply Hf, E|apply Hf]).
  - destruct (tasks s !! tid) as [[k [v|]|k [v|]]|] eqn:E; try done.
    + unfold get_history_resume, get_history_return.
      cbn [history_cache set_cache set_tasks].
      destruct (Pylru.getitem _ k) as [[v' c]|]; intros [= <- <-];
        (split; [|done]); intros tid' t'; cbn; rewrite lookup_delete;
        (case_decide; [done|apply Hf]).
    + intros [= <- <-]. split; [|done]. intros tid' t'. cbn.
      rewrite lookup_delete. case_decide; [done|apply Hf].
  - by intros [= <- <-].
  - by intros [= <- <-].
  - by intros [= <- <-].
  - by intros [= <- <-].
Qed.

Lemma run_fresh_ids tr : ∀ s g s' g' rs,
  fresh_ids s → run s g tr = Some (s', g', rs) → fresh_ids s'.
Proof.
  induction tr as [|e tr IH]; intros s g s' g' rs Hf; cbn [run].
  - by intros [= <- <- <-].
  - destruct (step s e) as [[s1 r]|] eqn:E; [|done].
    destruct (run s1 (track s g e) tr) as [[[s2 g2] rs2]|] eqn:E2; [|done].
    intros [= <- <- <-]. eapply IH; [|exact E2].
    by apply (step_fresh_ids s e s1 r).
Qed.

Lemma reachable_fresh_ids s g : reachable s g → fresh_ids s.
Proof.
  intros (b & dh & ms & tr & rs & Hrun). eapply run_fresh_ids; [|exact Hrun].
  intros tid t. cbn. by rewrite lookup_empty.
Qed.

Lemma step_keeps_finished_job s e s' r tid k v :
  fresh_ids s → tasks s !! tid = Some (HistoryJob k (Some v)) →
  e ≠ Resume tid → e ≠ Shutdown →
  step s e = Some (s', r) → tasks s' !! tid = Some (HistoryJob k (Some v)).
Proof.
  intros Hf Ht Hres Hshut. pose proof (Hf tid _ Ht) as Hlt.
  destruct e as [h T|k'|k'|tid'|tid'|h| | |b dh]; cbn [step].
  - destruct (notify _ _ _) as [c err]. by intros [= <- <-].
  - unfold get_history_call. destruct (Pylru.contains _ k').
    + unfold get_history_return. destruct (Pylru.getitem _ k') as [[v' c]|];
        by intros [= <- <-].
    + intros [= <- <-]. cbn. rewrite lookup_insert_ne; [done|lia].
  - intros [= <- <-]. cbn. rewrite lookup_insert_ne; [done|lia].
  - destruct (decide (tid' = tid)) as [->|Hne]; [by rewrite Ht|].
    destruct (tasks s !! tid') as [[k2 [v2|]|k2 [v2|]]|]; try done;
      intros [= <- <-]; cbn; by rewrite lookup_insert_ne.
  - assert (tid' ≠ tid) as Hne by congruence.
    destruct (tasks s !! tid') as [[k2 [v2|]|k2 [v2|]]|]; try done.
    + unfold get_history_resume, get_history_return.
      cbn [history_cache set_cache set_tasks].
      destruct (Pylru.getitem _ k2) as [[v' c]|]; intros [= <- <-]; cbn;
        by rewrite lookup_delete_ne.
    + intros [= <- <-]. cbn. by rewrite lookup_delete_ne.
  - by intros [= <- <-].
  - by intros [= <- <-].
  - done.
  - by intros [= <- <-].
Qed.

Lemma run_keeps_finished_job tid k v tr : ∀ s g s' g' rs,
  fresh_ids s → tasks s !! tid = Some (HistoryJob k (Some v)) →
  Resume tid ∉ tr → Shutdown ∉ tr →
  run s g tr = Some (s', g', rs) →
  tasks s' !! tid = Some (HistoryJob k (Some v)).
Proof.
  induction tr as [|e tr IH]; intros s g s' g' rs Hf Ht Hres Hshut; cbn [run].
  - by intros [= <- <- <-].
  - apply not_elem_of_cons in Hres as [Hres1 Hres2].
    apply not_elem_of_cons in Hshut as [Hshut1 Hshut2].
    destruct (step s e) as [[s1 r]|] eqn:E; [|done].
    destruct (run s1 (track s g e) tr) as [[[s2 g2] rs2]|] eqn:E2; [|done].
    intros [= <- <- <-]. eapply IH; [| |done|done|exact E2].
    + by apply (step_fresh_ids s e s1 r).
    + eapply step_keeps_finished_job; [done|done| | |exact E]; congruence.
Qed.

(** C4 as stated fails in its second half.  With [max_send = 200] the limit is
    2.  The history of key 5 is computed and cached while the store holds one
    record; the store then grows to five records and no notification touches
    the key; the next query is a hit and returns the one cached record, not
    two. *)
Lemma stale_hit_is_short :
  let b0 := BlockProcessor (λ _, [HistRecord 1]) (λ _, []) 10 (λ _ _, inr ([], 0)) in
  let b1 := BlockProcessor (λ _, HistRecord <$> [1; 2; 3; 4; 5]%N) (λ _, []) 11
              (λ _ _, inr ([], 0)) in
  ∃ s g,
    run (init b0 10 200) ghost0
      [GetHistory 5%N; Worker 0; Resume 0; Advance b1 11; Notify 11 {[6%N]};
       GetHistory 5%N]
    = Some (s, g, [Suspended 0; Done; History [HistRecord 1]; Done; Done;
                   History [HistRecord 1]])
    ∧ max_send s / 97 = 2
    ∧ length (bp_history (bp s) 5%N) = 5%nat
    ∧ ¬ (max_send s / 97 < Z.of_nat (length (bp_history (bp s) 5%N)) →
         Z.of_nat (length [HistRecord 1]) = max_send s / 97).
Proof.
  intros b0 b1. eexists _, _. split; [vm_compute; reflexivity|].
  split; [reflexivity|]. split; [reflexivity|].
  intros H. assert (Z.of_nat 1 = 2) as Habs; [|discriminate Habs].
  apply H. vm_compute. reflexivity.
Qed.

(** C4, amended: with [max_send = B], every history a query returns, whether
    computed or taken from the cache, has at most [B // 97] records, and 97
    is below the 99 bytes the source gives as the size of a record.  A query
    that misses the cache returns what its job computed: once the worker has
    run the job, the resumed call returns the first [B // 97] records the
    store held when the job ran, which are exactly [B // 97] records when the
    store held more than that. *)
Theorem history_limit (b : block_processor) (dh B : Z) (tr : list event)
    (s : chain_state) (g : ghost) (rs : list response) :
  0 ≤ B → run (init b dh B) ghost0 tr = Some (s, g, rs) →
  max_send s = B
  ∧ (∀ v, History v ∈ rs → Z.of_nat (length v) ≤ B / 97)
  ∧ (∀ k, history_job s k = bp_get_history (bp s) k (Some (B / 97))
          ∧ Z.of_nat (length (history_job s k)) ≤ B / 97
          ∧ (B / 97 < Z.of_nat (length (bp_history (bp s) k)) →
             Z.of_nat (length (history_job s k)) = B / 97))
  ∧ 97 < 99
  ∧ (∀ tid k, tasks s !! tid = Some (HistoryJob k None) →
       ∃ s1, step s (Worker tid) = Some (s1, Done)
             ∧ ∀ g1 tr2 s2 g2 rs2,
                 run s1 g1 tr2 = Some (s2, g2, rs2) →
                 Resume tid ∉ tr2 → Shutdown ∉ tr2 →
                 ∃ s3, step s2 (Resume tid)
                       = Some (s3, History (history_job s k))).
Proof.
  intros HB Hrun.
  destruct (run_limited B tr (init b dh B) ghost0 s g rs HB) as [(Hms & _) Hrs].
  - apply wf_new.
  - split; [done|]. split.
    + intros k v. cbn [init history_cache]. rewrite items_new.
      intros Hin. by apply elem_of_nil in Hin.
    + intros tid k v. cbn. by rewrite lookup_empty.
  - exact Hrun.
  - split; [done|]. split; [done|]. split; [|split; [lia|]].
    + intros k. split; [unfold history_job; by rewrite Hms|].
      rewrite <- Hms. apply history_job_length. lia.
    + intros tid k Ht.
      assert (reachable s g) as Hr by (by exists b, dh, B, tr, rs).
      pose proof (reachable_wf s g Hr) as Hwf.
      pose proof (reachable_fresh_ids s g Hr) as Hf.
      eexists. cbn [step]. rewrite Ht. split; [reflexivity|].
      intros g1 tr2 s2 g2 rs2 Hrun2 Hres Hshut.
      assert (step s (Worker tid)
              = Some (set_tasks s (<[tid := HistoryJob k (Some (history_job s k))]>
                                     (tasks s)), Done)) as Hw
        by (cbn [step]; by rewrite Ht).
      pose proof (run_wf tr2 _ g1 s2 g2 rs2 (step_wf _ _ _ _ Hwf Hw) Hrun2) as Hwf2.
      pose proof (run_keeps_finished_job tid k (history_job s k) tr2 _ g1 s2 g2 rs2
                    (proj1 (step_fresh_ids _ _ _ _ Hf Hw))
                    (lookup_insert_eq _ _ _) Hres Hshut Hrun2) as Ht2.
      eexists. cbn [step]. rewrite Ht2. by rewrite get_history_resume_eq.
Qed.

Lemma history_limit_witness :
  let b := BlockProcessor
             (λ _, HistRecord <$> [1; 2; 3; 4; 5]%N) (λ _, []) 10 (λ _ _, inr ([], 0)) in
  let b1 := BlockProcessor (λ _, []) (λ _, []) 11 (λ _ _, inr ([], 0)) in
  let tr2 := [Advance b1 11; Notify 11 {[5%N]}; GetUtxos 5%N] in
  ∃ s g rs s1 s2 g2 rs2 s3,
    run (init b 10 200) ghost0 [GetHistory 5%N] = Some (s, g, rs)
    ∧ (∀ v, History v ∈ rs → Z.of_nat (length v) ≤ 200 / 97)
    ∧ step s (Worker 0) = Some (s1, Done)
    ∧ run s1 g tr2 = Some (s2, g2, rs2)
    ∧ step s2 (Resume 0) = Some (s3, History [HistRecord 1; HistRecord 2])
    ∧ Z.of_nat (length [HistRecord 1; HistRecord 2]) = 200 / 97.
Proof.
  intros b b1 tr2.
  destruct (run (init b 10 200) ghost0 [GetHistory 5%N])
    as [[[s g] rs]|] eqn:E; [|vm_compute in E; discriminate E].
  destruct (history_limit b 10 200 _ s g rs ltac:(lia) E)
    as (Hms & Hrs & Hjob & _ & Hmiss).
  vm_compute in E. injection E as <- <- <-.
  destruct (Hmiss 0%nat 5%N eq_refl) as (s1 & Hw & Hres).
  pose proof Hw as Hw'. vm_compute in Hw'. injection Hw' as <-.
  match type of Hw with _ = Some (?x, _) => set (s1 := x) in * end.
  match type of Hw with step ?x _ = _ => set (s := x) in * end.
  destruct (run s1 (Ghost 0 {[0%nat := 0%nat]} ∅ 0 ∅) tr2)
    as [[[s2 g2] rs2]|] eqn:E2; [|vm_compute in E2; discriminate E2].
  destruct (Hres _ tr2 s2 g2 rs2 E2) as (s3 & Hs3).
  { intros Hin. unfold tr2 in Hin.
    repeat (apply elem_of_cons in Hin as [Heq|Hin]; [discriminate Heq|]).
    by apply elem_of_nil in Hin. }
  { intros Hin. unfold tr2 in Hin.
    repeat (apply elem_of_cons in Hin as [Heq|Hin]; [discriminate Heq|]).
    by apply elem_of_nil in Hin. }
  eexists s, _, _, s1, s2, g2, rs2, s3.
  split; [reflexivity|]. split; [exact Hrs|]. split; [exact Hw|].
  split; [exact E2|]. split; [exact Hs3|]. reflexivity.
Defined.

(** X10: concurrent misses are not coalesced.  A [get_history] call for a key
    that is not cached queues a new job and suspends, whether or not a job
    for the same key is already in flight; the cache is not touched and the
    jobs in flight before are all still there, so there is one job more. *)
Theorem miss_always_queues_a_job (s : chain_state) (g : ghost) (k : hashX) :
  reachable s g → k ∉ Pylru.keys (history_cache s) →
  ∃ s', step s (GetHistory k) = Some (s', Suspended (next_task s))
        ∧ history_cache s' = history_cache s
        ∧ tasks s !! next_task s = None
        ∧ tasks s' = <[next_task s := HistoryJob k None]> (tasks s)
        ∧ size (tasks s') = S (size (tasks s)).
Proof.
  intros Hr Hk. pose proof (reachable_wf s g Hr) as Hwf.
  assert (tasks s !! next_task s = None) as Hnone.
  { destruct (tasks s !! next_task s) as [t|] eqn:E; [|done].
    pose proof (reachable_fresh_ids s g Hr _ t E). lia. }
  eexists. cbn [step]. rewrite get_history_call_miss by done.
  split; [reflexivity|]. split; [done|]. split; [done|]. split; [done|].
  cbn. by apply map_size_insert_None.
Qed.

Lemma miss_always_queues_a_job_witness :
  let b := BlockProcessor (λ k, [HistRecord k]) (λ _, []) 10 (λ _ _, inr ([], 0)) in
  ∃ s g rs s',
    run (init b 10 1000000) ghost0 [GetHistory 1%N; Worker 0] = Some (s, g, rs)
    ∧ tasks s !! 0%nat = Some (HistoryJob 1%N (Some [HistRecord 1]))
    ∧ step s (GetHistory 1%N) = Some (s', Suspended 1)
    ∧ size (tasks s') = 2%nat.
Proof.
  intros b.
  destruct (run (init b 10 1000000) ghost0 [GetHistory 1%N; Worker 0])
    as [[[s g] rs]|] eqn:E; [|vm_compute in E; discriminate E].
  assert (reachable s g) as Hr by (eexists b, 10, 1000000, _, rs; exact E).
  assert (tasks s !! 0%nat = Some (HistoryJob 1%N (Some [HistRecord 1]))
          ∧ (1%N ∉ Pylru.keys (history_cache s))
          ∧ next_task s = 1%nat ∧ size (tasks s) = 1%nat) as (Ht & Hk & Hn & Hsz).
  { pose proof E as E'. vm_compute in E'. injection E' as <- _ _.
    split; [reflexivity|]. split; [by_evaluation|]. split; reflexivity. }
  destruct (miss_always_queues_a_job s g 1%N Hr Hk) as (s' & Hs & _ & _ & _ & Hsz').
  exists s, g, rs, s'. rewrite Hn in Hs. rewrite Hsz in Hsz'. by repeat split.
Defined.

(** X11: a notification that touches a key makes the next [get_history] for
    it a miss: whatever was cached for the key, the call right after the
    notification queues a new job and returns nothing from the cache. *)
Theorem invalidation_forces_recomputation (s : chain_state) (g : ghost)
    (height : Z) (touched : gset hashX) (k : hashX) :
  reachable s g → k ∈ touched →
  ∃ s1 s2,
    step s (Notify height touched) = Some (s1, Done)
    ∧ Pylru.peek (history_cache s1) k = None
    ∧ step s1 (GetHistory k) = Some (s2, Suspended (next_task s))
    ∧ tasks s2 !! next_task s = Some (HistoryJob k None)
    ∧ history_cache s2 = history_cache s1.
Proof.
  intros Hr Hk. pose proof (reachable_wf s g Hr) as Hwf.
  destruct (notify_spec cache_size _ height touched Hwf) as (c' & E & Hwf' & Hi).
  assert (k ∉ Pylru.keys c') as Hout.
  { unfold Pylru.keys. rewrite Hi. intros Hin.
    apply list_elem_of_fmap in Hin as (x & -> & Hx).
    apply list_elem_of_filter in Hx. tauto. }
  eexists (set_cache s c'), _. cbn [step]. rewrite E. split; [done|].
  cbn [history_cache set_cache]. split.
  - rewrite (wf_peek cache_size c' k Hwf'). by apply alookup_None.
  - rewrite get_history_call_miss by done. split; [reflexivity|].
    split; [|done]. cbn. apply lookup_insert_eq.
Qed.

Lemma invalidation_forces_recomputation_witness :
  let b := BlockProcessor (λ k, [HistRecord k]) (λ _, []) 10 (λ _ _, inr ([], 0)) in
  ∃ s g rs s1 s2,
    run (init b 10 1000000) ghost0 [GetHistory 1%N; Worker 0; Resume 0]
    = Some (s, g, rs)
    ∧ Pylru.peek (history_cache s) 1%N = Some [HistRecord 1]
    ∧ step s (Notify 11 {[1%N]}) = Some (s1, Done)
    ∧ step s1 (GetHistory 1%N) = Some (s2, Suspended 1).
Proof.
  intros b.
  destruct (run (init b 10 1000000) ghost0 [GetHistory 1%N; Worker 0; Resume 0])
    as [[[s g] rs]|] eqn:E; [|vm_compute in E; discriminate E].
  assert (reachable s g) as Hr by (eexists b, 10, 1000000, _, rs; exact E).
  assert (Pylru.peek (history_cache s) 1%N = Some [HistRecord 1]
          ∧ next_task s = 1%nat) as [Hp Hn].
  { pose proof E as E'. vm_compute in E'. injection E' as <- _ _.
    split; vm_compute; reflexivity. }
  destruct (invalidation_forces_recomputation s g 11 {[1%N]} 1%N Hr)
    as (s1 & s2 & H1 & _ & H2 & _); [by_evaluation|].
  exists s, g, rs, s1, s2. rewrite Hn in H2. by repeat split.
Defined.

(** ** Which keys the cache can hold *)
Lemma step_within (A : gset hashX) s e s' r :
  Pylru.wf cache_size (history_cache s) → within A s →
  (∀ k, e = GetHistory k → k ∈ A) →
  step s e = Some (s', r) → within A s'.
Proof.
  intros Hwf [Hc Ht] Hreq.
  destruct e as [h T|k|k|tid|tid|h| | |b dh]; cbn [step].
  - destruct (notify_spec cache_size _ h T Hwf) as (c' & -> & _ & Hi).
    intros [= <- <-]. split; [|done]. intros k. cbn. unfold Pylru.keys.
    rewrite Hi. intros Hk. apply Hc. unfold Pylru.keys.
    exact (sublist_subseteq _ _ (filter_keys_sublist _ _) k Hk).
  - destruct (decide (k ∈ Pylru.keys (history_cache s))) as [Hk|Hk].
    + destruct (get_history_call_hit s k Hwf Hk) as (v & c' & -> & _ & _ & Hi).
      intros [= <- <-]. split; [|done]. intros k'. cbn. unfold Pylru.keys at 1.
      rewrite Hi, fmap_cons, aremove_keys, elem_of_cons, list_elem_of_filter.
      intros [->|[_ ?]]; auto.
    + rewrite get_history_call_miss by done. intros [= <- <-].
      split; [done|]. intros tid k' res. cbn. rewrite lookup_insert.
      case_decide; [intros [= <- <-]; by apply Hreq|apply Ht].
  - intros [= <- <-]. split; [done|]. intros tid k' res. cbn.
    rewrite lookup_insert. case_decide; [done|apply Ht].
  - destruct (tasks s !! tid) as [[k [v|]|k [v|]]|] eqn:E; try done;
      intros [= <- <-]; (split; [done|]); intros tid' k' res; cbn;
      rewrite lookup_insert; (case_decide; [|apply Ht]).
    + intros [= <- <-]. eapply Ht, E.
    + done.
  - destruct (tasks s !! tid) as [[k [v|]|k [v|]]|] eqn:E; try done.
    + rewrite get_history_resume_eq by done. intros [= <- <-]. split.
      * intros k'. cbn [history_cache set_cache set_tasks].
        destruct (setitem_keys_sublist cache_size (history_cache s) k v Hwf)
          as (ks & -> & Hsub & _); [unfold cache_size; lia|].
        intros [->|Hk']%elem_of_cons; [eapply Ht, E|].
        by apply Hc, (sublist_subseteq _ _ Hsub).
      * intros tid' k' res. cbn. rewrite lookup_delete.
        case_decide; [done|apply Ht].
    + intros [= <- <-]. split; [done|]. intros tid' k' res. cbn.
      rewrite lookup_delete. case_decide; [done|apply Ht].
  - by intros [= <- <-].
  - by intros [= <- <-].
  - by intros [= <- <-].
  - by intros [= <- <-].
Qed.

Lemma run_within (A : gset hashX) tr : ∀ s g s' g' rs,
  Pylru.wf cache_size (history_cache s) → within A s → requested tr ⊆ A →
  run s g tr = Some (s', g', rs) →
  Pylru.wf cache_size (history_cache s') ∧ within A s'.
Proof.
  induction tr as [|e tr IH]; intros s g s' g' rs Hwf Hw Hreq; cbn [run].
  - by intros [= <- <- <-].
  - destruct (step s e) as [[s1 r]|] eqn:E; [|done].
    destruct (run s1 (track s g e) tr) as [[[s2 g2] rs2]|] eqn:E2; [|done].
    intros [= <- <- <-]. eapply IH; [| | |exact E2].
    + eapply step_wf; eauto.
    + eapply step_within; [done|done| |exact E].
      intros k ->. apply Hreq, elem_of_requested. left.
    + intros k Hk. apply Hreq. apply elem_of_requested in Hk.
      apply elem_of_requested. by right.
Qed.

(** X12: the cache holds only keys that [get_history] was called for, so it
    has no more entries than distinct keys were requested.  While at most 256
    distinct keys have been requested, a result for a key that is not cached
    never finds the cache full: nothing is evicted. *)
Theorem cache_within_requested (b : block_processor) (dh ms : Z) (tr : list event)
    (s : chain_state) (g : ghost) (rs : list response) :
  run (init b dh ms) ghost0 tr = Some (s, g, rs) →
  (∀ k, k ∈ Pylru.keys (history_cache s) → k ∈ requested tr)
  ∧ pending s ⊆ requested tr
  ∧ (Pylru.len (history_cache s) ≤ size (requested tr))%nat
  ∧ ((size (requested tr) ≤ 256)%nat →
     ∀ tid k v, tasks s !! tid = Some (HistoryJob k (Some v)) →
       k ∉ Pylru.keys (history_cache s) →
       (Pylru.len (history_cache s) < 256)%nat).
Proof.
  intros Hrun.
  destruct (run_within (requested tr) tr (init b dh ms) ghost0 s g rs)
    as [Hwf [Hc Ht]]; [apply wf_new| |done|done|].
  { split.
    - intros k. cbn [init history_cache]. unfold Pylru.keys. rewrite items_new.
      intros Hk. by apply elem_of_nil in Hk.
    - intros tid k res. cbn. by rewrite lookup_empty. }
  assert (Pylru.len (history_cache s) = length (Pylru.keys (history_cache s)))
    as Hlen.
  { rewrite (wf_len cache_size _ Hwf). unfold Pylru.keys. by rewrite length_fmap. }
  split; [done|]. split; [|split].
  - intros k (tid & res & Hk)%elem_of_pending. eauto.
  - rewrite Hlen. apply NoDup_length_le_size; [apply Hwf|done].
  - intros Hsize tid k v Htid Hk. rewrite Hlen.
    assert (length (k :: Pylru.keys (history_cache s)) ≤ size (requested tr))%nat
      as Hle.
    { apply NoDup_length_le_size.
      - apply NoDup_cons. split; [done|apply Hwf].
      - intros x [->|Hx]%elem_of_cons; [eapply Ht, Htid|by apply Hc]. }
    cbn in Hle. lia.
Qed.

Lemma cache_within_requested_witness :
  let b := BlockProcessor (λ k, [HistRecord k]) (λ _, []) 10 (λ _ _, inr ([], 0)) in
  ∃ s g rs,
    run (init b 10 1000000) ghost0
      [GetHistory 1%N; Worker 0; Resume 0; GetHistory 2%N; GetUtxos 3%N;
       GetHistory 1%N; Worker 1] = Some (s, g, rs)
    ∧ (Pylru.len (history_cache s) ≤ 2)%nat
    ∧ (3%N ∉ Pylru.keys (history_cache s)).
Proof.
  intros b.
  destruct (run (init b 10 1000000) ghost0
      [GetHistory 1%N; Worker 0; Resume 0; GetHistory 2%N; GetUtxos 3%N;
       GetHistory 1%N; Worker 1])
    as [[[s g] rs]|] eqn:E; [|vm_compute in E; discriminate E].
  destruct (cache_within_requested b 10 1000000 _ s g rs E) as (Hc & _ & Hlen & _).
  exists s, g, rs. split; [reflexivity|]. split.
  - etransitivity; [exact Hlen|]. apply Nat.leb_le. vm_compute. reflexivity.
  - intros Hk. apply Hc in Hk. revert Hk. by_evaluation.
Defined.

(** X13: the most recently used entry survives the next installation,
    whichever key is installed and however full the cache is; unless the
    installation is for the same key, its value is unchanged. *)
Theorem recent_entry_survives_install (s : chain_state) (g : ghost) (k : hashX)
    (v : list hist_record) (es : list (hashX * list hist_record)) (tid : nat)
    (k' : hashX) (v' : list hist_record) :
  reachable s g → Pylru.items (history_cache s) = (k, v) :: es →
  tasks s !! tid = Some (HistoryJob k' (Some v')) →
  ∃ s', step s (Resume tid) = Some (s', History v')
        ∧ k ∈ Pylru.keys (history_cache s')
        ∧ (k' ≠ k → Pylru.peek (history_cache s') k = Some v).
Proof.
  intros Hr Hi Ht. pose proof (reachable_wf s g Hr) as Hwf.
  eexists. cbn [step]. rewrite Ht, get_history_resume_eq by done.
  split; [reflexivity|]. cbn [history_cache set_cache set_tasks].
  destruct (wf_setitem cache_size (history_cache s) k' v' Hwf) as [Hwf' _];
    [unfold cache_size; lia|].
  assert (k' ≠ k → (k, v) ∈ Pylru.items (Pylru.setitem (history_cache s) k' v'))
    as Hkeep.
  { intros Hne. destruct (decide (k' ∈ Pylru.keys (history_cache s))) as [Hk|Hk].
    - destruct (wf_setitem_hit cache_size _ k' v' Hwf Hk) as [_ ->].
      right. unfold Pylru.aremove. apply list_elem_of_filter.
      split; [cbn; congruence|]. rewrite Hi. left.
    - pose proof (wf_length cache_size _ Hwf) as Hle.
      destruct (decide (length (Pylru.items (history_cache s)) < cache_size)%nat)
        as [Hlt|Hge].
      + destruct (wf_setitem_room cache_size _ k' v' Hwf Hk Hlt) as [_ ->].
        right. rewrite Hi. left.
      + destruct (wf_setitem_full cache_size _ k' v' Hwf Hk) as [_ ->];
          [lia|unfold cache_size; lia|].
        right. rewrite Hi in Hge |- *. destruct es as [|e0 es0].
        * cbn in Hge. unfold cache_size in Hge. lia.
        * cbn [removelast]. left. }
  split.
  - destruct (decide (k' = k)) as [->|Hne].
    + destruct (wf_setitem cache_size (history_cache s) k v' Hwf) as [_ [es' He]];
        [unfold cache_size; lia|].
      unfold Pylru.keys. rewrite He. left.
    + unfold Pylru.keys. apply (list_elem_of_fmap_2 fst _ _ (Hkeep Hne)).
  - intros Hne. apply (peek_elem cache_size _ k v Hwf'). auto.
Qed.

Lemma recent_entry_survives_install_witness :
  let b := BlockProcessor (λ k, [HistRecord k]) (λ _, []) 10 (λ _ _, inr ([], 0)) in
  ∃ s g rs s',
    run (init b 10 1000000) ghost0
      [GetHistory 1%N; GetHistory 2%N; Worker 0; Worker 1; Resume 0]
    = Some (s, g, rs)
    ∧ step s (Resume 1) = Some (s', History [HistRecord 2])
    ∧ Pylru.peek (history_cache s') 1%N = Some [HistRecord 1].
Proof.
  intros b.
  destruct (run (init b 10 1000000) ghost0
      [GetHistory 1%N; GetHistory 2%N; Worker 0; Worker 1; Resume 0])
    as [[[s g] rs]|] eqn:E; [|vm_compute in E; discriminate E].
  assert (reachable s g) as Hr by (eexists b, 10, 1000000, _, rs; exact E).
  assert (Pylru.items (history_cache s) = [(1%N, [HistRecord 1])]
          ∧ tasks s !! 1%nat = Some (HistoryJob 2%N (Some [HistRecord 2])))
    as [Hi Ht].
  { pose proof E as E'. vm_compute in E'. injection E' as <- _ _.
    split; vm_compute; reflexivity. }
  destruct (recent_entry_survives_install s g 1%N _ _ 1 2%N _ Hr Hi Ht)
    as (s' & Hs & _ & Hp).
  exists s, g, rs, s'. split; [reflexivity|]. split; [exact Hs|].
  apply Hp. discriminate.
Defined.

(** X14: when the store changes and the notification delivered next touches
    every key whose history changed, the cache is again what the store says,
    provided no finished job for a changed key is waiting to be installed.
    Jobs the worker has not run yet do no harm. *)
Theorem notified_change_keeps_coherence (b b' : block_processor) (ms dh h : Z)
    (touched : gset hashX) (s : chain_state) (g : ghost) :
  reachable s g → coherent b ms s →
  (∀ k, k ∉ touched → bp_history b' k = bp_history b k) →
  (∀ tid k v, tasks s !! tid = Some (HistoryJob k (Some v)) →
     bp_history b' k = bp_history b k) →
  ∃ s' g' rs,
    run s g [Advance b' dh; Notify h touched] = Some (s', g', rs)
    ∧ coherent b' ms s'
    ∧ ∀ k v, Pylru.peek (history_cache s') k = Some v → v = history_job s' k.
Proof.
  intros Hr (Hb & Hms & Hc & Ht) Hcover Hjobs.
  pose proof (reachable_wf s g Hr) as Hwf.
  destruct (notify_spec cache_size _ h touched Hwf) as (c' & E & Hwf' & Hi).
  cbn [run step history_cache]. rewrite E. eexists _, _, _.
  split; [reflexivity|].
  assert (coherent b' ms
            (set_cache (ChainState (history_cache s) b' (bp_shutdown s) dh
                          (max_send s) (tasks s) (next_task s)) c')) as Hcoh.
  { split; [done|]. split; [done|]. split.
    - intros k v. cbn. rewrite Hi, list_elem_of_filter. cbn. intros [Hk Hin].
      unfold bp_get_history. rewrite (Hcover k Hk). by apply Hc.
    - intros tid k v. cbn. intros Htid.
      unfold bp_get_history. rewrite (Hjobs tid k v Htid). by eapply Ht. }
  split; [exact Hcoh|].
  intros k v Hv. apply (peek_elem cache_size _ k v Hwf') in Hv.
  destruct Hcoh as (_ & _ & Hc' & _). unfold history_job. cbn.
  rewrite Hms. by apply Hc'.
Qed.

Lemma notified_change_keeps_coherence_witness :
  let b := BlockProcessor (λ k, [HistRecord k]) (λ _, []) 10 (λ _ _, inr ([], 0)) in
  let b' := BlockProcessor (λ k, if decide (k = 1%N) then [HistRecord 1; HistRecord 9]
                                 else [HistRecord k]) (λ _, []) 11
              (λ _ _, inr ([], 0)) in
  ∃ s g rs s' g' rs',
    run (init b 10 1000000) ghost0
      [GetHistory 1%N; GetHistory 2%N; Worker 0; Worker 1; Resume 0; Resume 1;
       GetHistory 1%N]
    = Some (s, g, rs)
    ∧ run s g [Advance b' 11; Notify 11 {[1%N]}] = Some (s', g', rs')
    ∧ coherent b' 1000000 s'.
Proof.
  intros b b'.
  destruct (run (init b 10 1000000) ghost0
      [GetHistory 1%N; GetHistory 2%N; Worker 0; Worker 1; Resume 0; Resume 1;
       GetHistory 1%N])
    as [[[s g] rs]|] eqn:E; [|vm_compute in E; discriminate E].
  assert (reachable s g) as Hr by (eexists b, 10, 1000000, _, rs; exact E).
  assert (coherent b 1000000 s) as Hc.
  { eapply (run_coherent b 1000000 _ (init b 10 1000000)); [apply wf_new| | |exact E].
    - split; [done|]. split; [done|]. split.
      + intros k v. cbn [init history_cache]. rewrite items_new.
        intros Hin. by apply elem_of_nil in Hin.
      + intros tid k v. cbn. by rewrite lookup_empty.
    - intros b0 dh0 Hin.
      repeat (apply elem_of_cons in Hin as [Heq|Hin]; [discriminate Heq|]).
      by apply elem_of_nil in Hin. }
  assert (tasks s = ∅) as Hts.
  { pose proof E as E'. vm_compute in E'. by injection E' as <- _ _. }
  destruct (notified_change_keeps_coherence b b' 1000000 11 11 {[1%N]} s g Hr Hc)
    as (s' & g' & rs' & Hrun & Hc' & _).
  - intros k Hk. cbn. rewrite decide_False; [done|].
    intros ->. apply Hk. by apply elem_of_singleton.
  - intros tid k v. by rewrite Hts, lookup_empty.
  - by exists s, g, rs, s', g', rs'.
Defined.
